(** * StructRecord: a struct seen as a key/value Record

    Shallow embedding of [message/struct_record.go] (package [message]) and
    of the part of Go's [reflect] and [strings] packages that it calls.

    - [Module strings] and [Module reflect] model the library calls the
      source makes ([strings.Split], [reflect.TypeOf], [reflect.VisibleFields],
      [reflect.ValueOf], [reflect.Indirect], [Value.FieldByName], ...).
    - The top level holds the package's own code: [StructRecord],
      [NewStructRecord], [extract], [In], [Get], [GetKeys], [GetVals].

    A Go call either returns or panics: fallible calls return [result]. *)

From Stdlib Require Import ZArith String Ascii List Lia.
From stdpp Require Import base option list gmap strings sorting.

Set Default Proof Using "Type".

(** ** Outcome of a call: a returned value or a run-time panic *)

Inductive result (A : Type) : Type :=
| Ok (a : A)
| Panic (msg : string).
Arguments Ok {A} a.
Arguments Panic {A} msg.

#[global] Instance result_ret : MRet result := fun A a => Ok a.
#[global] Instance result_bind : MBind result := fun A B f m =>
  match m with
  | Ok a => f a
  | Panic msg => Panic msg
  end.

Definition returns {A} (r : result A) : Prop := exists a, r = Ok a.
Definition panics {A} (r : result A) : Prop := exists msg, r = Panic msg.

(** ** package strings *)

Module strings.

(** [strings.Split(s, sep)] for a one-byte separator, which is how the source
    calls it ([sep = ","]): the substrings between the occurrences of [sep].
    The result is never empty. [cur] is the piece being read. *)
Fixpoint split_from (cur : string) (s : string) (sep : ascii) : list string :=
  match s with
  | EmptyString => [cur]
  | String c s' =>
      if decide (c = sep) then cur :: split_from EmptyString s' sep
      else split_from (cur +:+ String c EmptyString) s' sep
  end.

Definition Split (s : string) (sep : ascii) : list string :=
  split_from EmptyString s sep.

End strings.

(** ** package reflect *)

Module reflect.

(** [reflect.Kind]. *)
Inductive Kind : Set :=
| Invalid | Bool | Int | Int8 | Int16 | Int32 | Int64
| Uint | Uint8 | Uint16 | Uint32 | Uint64 | Uintptr
| Float32 | Float64 | Complex64 | Complex128
| Array | Chan | Func | Interface | Map | Ptr | Slice | String | Struct
| UnsafePointer.

#[global] Instance Kind_eq_dec : EqDecision Kind.
Proof. solve_decision. Defined.

(** The kinds of the types that are neither pointers nor structs. For those
    the source only ever looks at the kind. *)
Inductive OtherKind : Set :=
| OBool | OInt | OInt8 | OInt16 | OInt32 | OInt64
| OUint | OUint8 | OUint16 | OUint32 | OUint64 | OUintptr
| OFloat32 | OFloat64 | OComplex64 | OComplex128
| OArray | OChan | OFunc | OInterface | OMap | OSlice | OString
| OUnsafePointer.

Definition kind_of_other (k : OtherKind) : Kind :=
  match k with
  | OBool => Bool | OInt => Int | OInt8 => Int8 | OInt16 => Int16
  | OInt32 => Int32 | OInt64 => Int64
  | OUint => Uint | OUint8 => Uint8 | OUint16 => Uint16 | OUint32 => Uint32
  | OUint64 => Uint64 | OUintptr => Uintptr
  | OFloat32 => Float32 | OFloat64 => Float64
  | OComplex64 => Complex64 | OComplex128 => Complex128
  | OArray => Array | OChan => Chan | OFunc => Func | OInterface => Interface
  | OMap => Map | OSlice => Slice | OString => String
  | OUnsafePointer => UnsafePointer
  end.

(** [reflect.StructTag]: the [key:"value"] pairs of a field's tag, in the
    order they are written. *)
Definition StructTag : Type := list (string * string).

(** [StructTag.Get]: the value of the first pair with this key, the empty
    string when there is none. *)
Fixpoint StructTag_Get (tag : StructTag) (key : string) : string :=
  match tag with
  | [] => EmptyString
  | (k, v) :: rest => if decide (k = key) then v else StructTag_Get rest key
  end.

(** A field as a struct type declares it. [dPkgPath] is empty exactly for an
    exported (upper-case) name, as in [reflect.StructField.PkgPath]. *)
Record fieldDecl : Type := mkDecl {
  dName : string;
  dPkgPath : string;
  dTag : StructTag;
  dEmbedded : bool
}.

(** [reflect.Type], as a finite type descriptor. Type descriptors are trees:
    a struct type that embeds a pointer to itself is not represented (it is
    the only case in which the [visiting] set of [VisibleFields] matters). *)
#[local] Unset Elimination Schemes.
Inductive rtype : Type :=
| TOther (k : OtherKind)
| TPtr (elem : rtype)
| TStruct (fields : list (fieldDecl * rtype)).
#[local] Set Elimination Schemes.

Definition Type_Kind (t : rtype) : Kind :=
  match t with
  | TOther k => kind_of_other k
  | TPtr _ => Ptr
  | TStruct _ => Struct
  end.

(** [Type.Elem]: panics unless the type has an element type. Of the types of
    the model only pointers have one. *)
Definition Type_Elem (t : rtype) : result rtype :=
  match t with
  | TPtr e => Ok e
  | _ => Panic "reflect: Elem of invalid type"
  end.

(** [reflect.StructField]. *)
Record StructField : Type := mkStructField {
  Name : string;
  PkgPath : string;
  Typ : rtype;
  Tag : StructTag;
  Index : list nat;
  Anonymous : bool
}.

(** [StructField.IsExported]. *)
Definition IsExported (f : StructField) : bool :=
  bool_decide (PkgPath f = EmptyString).

Definition field_of_decl (d : fieldDecl) (ft : rtype) (index : list nat)
  : StructField :=
  {| Name := dName d; PkgPath := dPkgPath d; Typ := ft; Tag := dTag d;
     Index := index; Anonymous := dEmbedded d |}.

(** [Type.NumField] and [Type.Field]. *)
Definition Type_NumField (t : rtype) : result nat :=
  match t with
  | TStruct fs => Ok (length fs)
  | _ => Panic "reflect: NumField of non-struct type"
  end.

Definition Type_Field (t : rtype) (i : nat) : result StructField :=
  match t with
  | TStruct fs =>
      match fs !! i with
      | Some (d, ft) => Ok (field_of_decl d ft [i])
      | None => Panic "reflect: Field index out of bounds"
      end
  | _ => Panic "reflect: Field of non-struct type"
  end.

(** *** VisibleFields *)

(** [visibleFieldsWalker]. The current [index] is passed to [walk] as an
    argument instead of being pushed and popped in the walker. *)
Record walker : Type := mkWalker {
  byName : gmap string nat;
  fields : list StructField
}.

Definition hide (f : StructField) : StructField :=
  {| Name := EmptyString; PkgPath := PkgPath f; Typ := Typ f; Tag := Tag f;
     Index := Index f; Anonymous := Anonymous f |}.

(** [f.Index = append([]int(nil), w.index...)]. *)
Definition with_index (f : StructField) (index : list nat) : StructField :=
  {| Name := Name f; PkgPath := PkgPath f; Typ := Typ f; Tag := Tag f;
     Index := index; Anonymous := Anonymous f |}.

(** The body of [walk]'s loop for one field [f] found at [index], up to and
    including [if add { ... }]. A field of the same name seen before is
    hidden when the new one is at the same depth or shallower; the new one is
    added when there was none or when it is shallower. *)
Definition visit (f : StructField) (index : list nat) (w : walker) : walker :=
  let '(add, fs) :=
    match byName w !! Name f with
    | Some oldIndex =>
        match fields w !! oldIndex with
        | Some old =>
            if decide (length index = length (Index old)) then
              (false, <[oldIndex := hide old]> (fields w))
            else if decide (length index < length (Index old)) then
              (true, <[oldIndex := hide old]> (fields w))
            else (false, fields w)
        | None => (true, fields w) (* no such position: see [walk_byName_lt] *)
        end
    | None => (true, fields w)
    end in
  if add : bool then
    {| byName := <[Name f := length fs]> (byName w);
       fields := fs ++ [with_index f index] |}
  else {| byName := byName w; fields := fs |}.

(** The struct type that [walk] goes into below an embedded field of type
    [ft]: [ft] itself, or what it points to, when that is a struct. *)
Definition embedded_struct (ft : rtype) : option rtype :=
  match ft with
  | TPtr (TStruct fs) => Some (TStruct fs)
  | TStruct fs => Some (TStruct fs)
  | _ => None
  end.

(** The loop of [walk] over the fields [fs] of a struct, from position [i];
    [walk] is the recursive call. *)
Definition walk_fields (walk : rtype -> list nat -> walker -> walker)
  (index : list nat) : list (fieldDecl * rtype) -> nat -> walker -> walker :=
  fix go (fs : list (fieldDecl * rtype)) (i : nat) (w : walker) {struct fs}
    : walker :=
    match fs with
    | [] => w
    | (d, ft) :: rest =>
        let idx := index ++ [i] in
        let w1 := visit (field_of_decl d ft [i]) idx w in
        let w2 :=
          if dEmbedded d then
            match ft with
            | TPtr (TStruct _ as st) => walk st idx w1
            | TStruct _ => walk ft idx w1
            | _ => w1
            end
          else w1 in
        go rest (S i) w2
    end.

(** [walk]: the fields of [t] in index preorder. An embedded field whose type
    is a struct, or a pointer to one, is walked into right after it is
    visited. *)
Fixpoint walk (t : rtype) (index : list nat) (w : walker) {struct t} : walker :=
  match t with
  | TStruct fs => walk_fields walk index fs 0 w
  | _ => w
  end.

(** [reflect.VisibleFields]. *)
Definition VisibleFields (t : rtype) : result (list StructField) :=
  match t with
  | TStruct _ =>
      let w := walk t [] {| byName := ∅; fields := [] |} in
      Ok (filter (fun f => Name f ≠ EmptyString) (fields w))
  | _ => Panic "reflect.VisibleFields of non-struct type"
  end.

(** [Type.FieldByName] on a struct type. The documentation of
    [VisibleFields] defines a field as visible exactly when [FieldByName]
    reaches it, so the lookup is by name among the visible fields; names are
    not empty in Go, and a hidden entry (name cleared) is never returned.
    [Type_FieldByName_selector] shows that this is the rule of Go's
    selectors, which [FieldByName] follows: the field of that name at the
    least depth, provided it is the only one at that depth. *)
Definition Type_FieldByName (t : rtype) (name : string) : result (option StructField) :=
  vf ← VisibleFields t;
  Ok (find (fun f => bool_decide (Name f = name)) vf).

(** *** Values *)

Definition addr : Type := nat.

(** Run-time data. A pointer is nil or the address of a heap cell; a struct
    holds one value per declared field; a value of interface type is
    [VIface c], where [c] is what the interface holds: nothing (the nil
    interface) or a dynamic type with a value of that type. *)
#[local] Unset Elimination Schemes.
Inductive value : Type :=
| VBool (b : bool)
| VInt (n : Z)
| VString (s : string)
| VNil
| VPtr (a : addr)
| VStruct (fs : list value)
| VIface (c : option (rtype * value)).
#[local] Set Elimination Schemes.

(** The memory that pointers refer to. It is an argument of every read. *)
Abbreviation heap := (gmap addr value).

(** [interface{}]: [None] is the nil interface, otherwise a dynamic type and
    a copy of the value. *)
Definition iface : Type := option (rtype * value).

(** A valid [reflect.Value]: a type, the data, and the two read-only flags
    that [Value.Field] sets on what is reached through an unexported field. *)
Record rvalue : Type := mkValue {
  vtyp : rtype;
  vdata : value;
  flagStickyRO : bool;
  flagEmbedRO : bool
}.

(** [reflect.Value]: [None] is the zero Value. *)
Definition Value : Type := option rvalue.

(** [reflect.TypeOf]: the nil [Type] for the nil interface. *)
Definition TypeOf (i : iface) : option rtype := fst <$> i.

(** A method call on a [reflect.Type] that may be the nil interface. *)
Definition on_type {A} (t : option rtype) (m : rtype -> result A) : result A :=
  match t with
  | Some t => m t
  | None => Panic "runtime error: invalid memory address or nil pointer dereference"
  end.

(** [reflect.ValueOf]: the zero Value for the nil interface. *)
Definition ValueOf (i : iface) : Value :=
  match i with
  | Some (t, x) => Some (mkValue t x false false)
  | None => None
  end.

(** [Value.Kind]: [Invalid] for the zero Value. *)
Definition Value_Kind (v : Value) : Kind :=
  match v with
  | Some r => Type_Kind (vtyp r)
  | None => Invalid
  end.

(** [Value.IsNil] on a pointer. *)
Definition Value_IsNil (v : Value) : result bool :=
  match v with
  | Some (mkValue (TPtr _) VNil _ _) => Ok true
  | Some (mkValue (TPtr _) _ _ _) => Ok false
  | _ => Panic "reflect: call of reflect.Value.IsNil on non-pointer Value"
  end.

(** [Value.Elem] on a pointer: the zero Value for a nil pointer, else the
    value the pointer refers to, read from the heap now. The read-only flags
    are kept. *)
Definition Value_Elem (h : heap) (v : Value) : result Value :=
  match v with
  | Some (mkValue (TPtr t) VNil _ _) => Ok None
  | Some (mkValue (TPtr t) (VPtr a) sticky embed) =>
      match h !! a with
      | Some x => Ok (Some (mkValue t x sticky embed))
      | None => Panic "model: pointer to no heap cell"
      end
  | Some (mkValue (TPtr t) _ _ _) => Panic "model: value is not of its type"
  | _ => Panic "reflect: call of reflect.Value.Elem on non-pointer Value"
  end.

(** [reflect.Indirect]. *)
Definition Indirect (h : heap) (v : Value) : result Value :=
  if decide (Value_Kind v ≠ Ptr) then Ok v else Value_Elem h v.

(** Whether the declared name is exported. *)
Definition decl_exported (d : fieldDecl) : bool :=
  bool_decide (dPkgPath d = EmptyString).

(** [Value.Field]. The field inherits [flagStickyRO] and drops [flagEmbedRO];
    an unexported field sets [flagEmbedRO] when it is embedded and
    [flagStickyRO] when it is not. *)
Definition Value_Field (v : Value) (i : nat) : result Value :=
  match v with
  | Some (mkValue (TStruct fs) x sticky _) =>
      match fs !! i with
      | Some (d, ft) =>
          match x with
          | VStruct vs =>
              match vs !! i with
              | Some y =>
                  Ok (Some (mkValue ft y
                              (sticky || (negb (decl_exported d) && negb (dEmbedded d)))
                              (negb (decl_exported d) && dEmbedded d)))
              | None => Panic "model: value is not of its type"
              end
          | _ => Panic "model: value is not of its type"
          end
      | None => Panic "reflect: Field index out of range"
      end
  | _ => Panic "reflect: call of reflect.Value.Field on non-struct Value"
  end.

(** The loop of [Value.FieldByIndex]; [first] is [i == 0]. *)
Fixpoint FieldByIndex_loop (h : heap) (first : bool) (v : Value)
  (index : list nat) : result Value :=
  match index with
  | [] => Ok v
  | x :: rest =>
      v1 ← (if first then Ok v
            else
              match v with
              | Some (mkValue (TPtr (TStruct _)) _ _ _) =>
                  isnil ← Value_IsNil v;
                  if isnil : bool then
                    Panic "reflect: indirection through nil pointer to embedded struct"
                  else Value_Elem h v
              | _ => Ok v
              end);
      v2 ← Value_Field v1 x;
      FieldByIndex_loop h false v2 rest
  end.

(** [Value.FieldByIndex]. *)
Definition Value_FieldByIndex (h : heap) (v : Value) (index : list nat)
  : result Value :=
  match index with
  | [i] => Value_Field v i
  | _ =>
      if decide (Value_Kind v = Struct) then FieldByIndex_loop h true v index
      else Panic "reflect: call of reflect.Value.FieldByIndex on non-struct Value"
  end.

(** [Value.FieldByName]: the zero Value when the type has no such field. *)
Definition Value_FieldByName (h : heap) (v : Value) (name : string)
  : result Value :=
  match v with
  | Some (mkValue (TStruct fs) _ _ _) =>
      f ← Type_FieldByName (TStruct fs) name;
      match f with
      | Some f => Value_FieldByIndex h v (Index f)
      | None => Ok None
      end
  | Some _ => Panic "reflect: call of reflect.Value.FieldByName on non-struct Value"
  | None => Panic "reflect: call of reflect.Value.FieldByName on zero Value"
  end.

(** [Value.Interface]: refused on the zero Value and on a value obtained
    through an unexported field. For a Value of kind [Interface] (a field of
    interface type) the result is what the interface holds, the nil
    interface or its dynamic type and value; for any other kind it is the
    Value's type with its data. *)
Definition Value_Interface (v : Value) : result iface :=
  match v with
  | Some r =>
      if flagStickyRO r || flagEmbedRO r then
        Panic "reflect.Value.Interface: cannot return value obtained from unexported field or method"
      else if decide (Type_Kind (vtyp r) = Interface) then
        match vdata r with
        | VIface c => Ok c
        | _ => Panic "model: value is not of its type"
        end
      else Ok (Some (vtyp r, vdata r))
  | None => Panic "reflect: call of reflect.Value.Interface on zero Value"
  end.

End reflect.

(** ** package message *)

(** [s[i]] on a slice. *)
Definition slice_index {A} (s : list A) (i : nat) : result A :=
  match s !! i with
  | Some x => Ok x
  | None => Panic "runtime error: index out of range"
  end.

(** [error] values made by [errors.New]. *)
Inductive error : Type := errors_New (msg : string).

(** [ErrNotAStruct] is for when the provided arg is not a struct. *)
Definition ErrNotAStruct : error := errors_New "not a struct".

(** [StructRecord] wraps a struct and implements the Record interface based
    on the given tag lookup as the keys. *)
Record StructRecord : Type := mkStructRecord {
  tagName : string;
  record : reflect.iface;
  tags : list string;
  tagsToName : gmap string string
}.

(** [StructRecord{}]. *)
Definition zeroStructRecord : StructRecord :=
  {| tagName := ""; record := None; tags := []; tagsToName := ∅ |}.

(** [extract]: the keys that field [f] contributes (none or one) and the
    updated [tagsToName], which the source updates in place. *)
Definition extract (f : reflect.StructField) (tag : string)
  (tagsToName : gmap string string) : result (list string * gmap string string) :=
  let tags := [] in
  let tagVal := reflect.Name f in
  if decide (tag ≠ "") then
    tagVal ← slice_index (strings.Split (reflect.StructTag_Get (reflect.Tag f) tag) ",") 0;
    if decide (tagVal = "" ∨ tagVal = "-") then Ok (tags, tagsToName)
    else Ok (tags ++ [tagVal], <[tagVal := reflect.Name f]> tagsToName)
  else Ok (tags ++ [tagVal], <[tagVal := reflect.Name f]> tagsToName).

(** The loop of [NewStructRecord] over the visible fields. *)
Fixpoint extract_all (sfs : list reflect.StructField) (tag : string)
  (tags : list string) (tagsToName : gmap string string)
  : result (list string * gmap string string) :=
  match sfs with
  | [] => Ok (tags, tagsToName)
  | sf :: rest =>
      if reflect.IsExported sf && negb (reflect.Anonymous sf) then
        '(ts, m) ← extract sf tag tagsToName;
        extract_all rest tag (tags ++ ts) m
      else extract_all rest tag tags tagsToName
  end.

(** [NewStructRecord] creates a new StructRecord. Of [tagName] only the
    first element is used. *)
Definition NewStructRecord (strct : reflect.iface) (tagName : list string)
  : result (StructRecord * option error) :=
  let tag := match tagName with t0 :: _ => t0 | [] => "" end in
  let t := reflect.TypeOf strct in
  k ← reflect.on_type t (fun t => Ok (reflect.Type_Kind t));
  t ← (if decide (k = reflect.Ptr) then
         e ← reflect.on_type t reflect.Type_Elem; Ok (Some e)
       else Ok t);
  k ← reflect.on_type t (fun t => Ok (reflect.Type_Kind t));
  if decide (k ≠ reflect.Struct) then Ok (zeroStructRecord, Some ErrNotAStruct)
  else
    vf ← reflect.on_type t reflect.VisibleFields;
    '(tags, tagsToName) ← extract_all vf tag [] ∅;
    Ok ({| tagName := tag; record := strct; tags := tags;
           tagsToName := tagsToName |}, None).

(** [In] returns the original struct that this wraps. *)
Definition In (sr : StructRecord) : reflect.iface := record sr.

(** [Get]. The wrapped value is read when [Get] is called, in heap [h]. *)
Definition Get (h : reflect.heap) (sr : StructRecord) (key : string)
  : result (reflect.iface * bool) :=
  match tagsToName sr !! key with
  | Some name =>
      let r := reflect.ValueOf (record sr) in
      v ← reflect.Indirect h r;
      f ← reflect.Value_FieldByName h v name;
      i ← reflect.Value_Interface f;
      Ok (i, true)
  | None => Ok (None, false)
  end.

(** [GetKeys]. *)
Definition GetKeys (sr : StructRecord) : list string := tags sr.

(** The loop of [GetVals]: [None] is the nil slice returned when a key is
    not found. *)
Fixpoint GetVals_loop (h : reflect.heap) (sr : StructRecord)
  (keys : list string) (vals : list reflect.iface)
  : result (option (list reflect.iface)) :=
  match keys with
  | [] => Ok (Some vals)
  | key :: rest =>
      '(val, ok) ← Get h sr key;
      if ok : bool then GetVals_loop h sr rest (vals ++ [val])
      else Ok None
  end.

(** [GetVals]. *)
Definition GetVals (h : reflect.heap) (sr : StructRecord)
  : result (option (list reflect.iface)) :=
  GetVals_loop h sr (tags sr) [].

(** ** Notions used to state the properties *)

(** The part of [s] before the first [sep], all of [s] when there is none. *)
Fixpoint before (sep : ascii) (s : string) : string :=
  match s with
  | EmptyString => EmptyString
  | String c s' => if decide (c = sep) then EmptyString else String c (before sep s')
  end.

(** Whether the byte [c] occurs in [s]. *)
Fixpoint contains_byte (c : ascii) (s : string) : bool :=
  match s with
  | EmptyString => false
  | String c' s' => if decide (c' = c) then true else contains_byte c s'
  end.

(** The fields that the loop of [NewStructRecord] passes to [extract]. *)
Definition included (f : reflect.StructField) : bool :=
  reflect.IsExported f && negb (reflect.Anonymous f).

(** The key under which a field is exposed, if any. *)
Definition exposed_key (tag : string) (f : reflect.StructField) : option string :=
  if decide (tag = "") then Some (reflect.Name f)
  else
    let v := before "," (reflect.StructTag_Get (reflect.Tag f) tag) in
    if decide (v = "" ∨ v = "-") then None else Some v.

(** The fields of [vf] that contribute a key, each with its key, in the
    order of [vf]. *)
Definition contributions (tag : string) (vf : list reflect.StructField)
  : list (string * reflect.StructField) :=
  omap (fun f => k ← exposed_key tag f; Some (k, f)) (filter (fun f => included f) vf).

(** The last field of [cs] that contributes key [k]. *)
Definition last_with_key (k : string) (cs : list (string * reflect.StructField))
  : option (string * reflect.StructField) :=
  last (filter (fun c => c.1 = k) cs).

(** The struct type that [NewStructRecord] accepts for dynamic type [t]: [t]
    itself or, when [t] is a pointer, what it points to. *)
Definition struct_after_deref (t : reflect.rtype) : option reflect.rtype :=
  match t with
  | reflect.TStruct fs => Some (reflect.TStruct fs)
  | reflect.TPtr (reflect.TStruct fs) => Some (reflect.TStruct fs)
  | _ => None
  end.

(** [tagName[0]], the empty string when no tag name is given. *)
Definition first_tag (tagName : list string) : string :=
  match tagName with t0 :: _ => t0 | [] => "" end.

(** The visible fields of a struct type ([[]] for any other type, on which
    [reflect.VisibleFields] panics). *)
Definition visible_fields (st : reflect.rtype) : list reflect.StructField :=
  match reflect.VisibleFields st with
  | Ok vf => vf
  | Panic _ => []
  end.

(** The fields of struct type [st] that contribute a key under [tag]. *)
Definition contributors (tag : string) (st : reflect.rtype)
  : list (string * reflect.StructField) :=
  contributions tag (visible_fields st).

(** [tagsToName] after the fields [cs] have been extracted in order. *)
Definition insert_all (cs : list (string * reflect.StructField))
  (m : gmap string string) : gmap string string :=
  foldl (fun m c => <[c.1 := reflect.Name c.2]> m) m cs.

(** *** The declaration tree of a struct type *)

(** Every field of struct type [t] and of the structs it embeds, at any
    depth, in declaration order (index preorder), with its index path below
    [index]. Nothing is hidden here. *)
Definition all_fields_of (all_fields : reflect.rtype -> list nat -> list reflect.StructField)
  (index : list nat)
  : list (reflect.fieldDecl * reflect.rtype) -> nat -> list reflect.StructField :=
  fix go (fs : list (reflect.fieldDecl * reflect.rtype)) (i : nat) {struct fs}
    : list reflect.StructField :=
    match fs with
    | [] => []
    | (d, ft) :: rest =>
        reflect.field_of_decl d ft (index ++ [i])
        :: (if reflect.dEmbedded d then
              match ft with
              | reflect.TPtr (reflect.TStruct _ as st) => all_fields st (index ++ [i])
              | reflect.TStruct _ => all_fields ft (index ++ [i])
              | _ => []
              end
            else [])
        ++ go rest (S i)
    end.

Fixpoint all_fields (t : reflect.rtype) (index : list nat) {struct t}
  : list reflect.StructField :=
  match t with
  | reflect.TStruct fs => all_fields_of all_fields index fs 0
  | _ => []
  end.

(** The fields that a struct declares at its immediate level, from position
    [i], as [Type.Field] describes them. *)
Fixpoint declared_from (i : nat) (fs : list (reflect.fieldDecl * reflect.rtype))
  : list reflect.StructField :=
  match fs with
  | [] => []
  | (d, ft) :: rest => reflect.field_of_decl d ft [i] :: declared_from (S i) rest
  end.

Definition declared_fields (fs : list (reflect.fieldDecl * reflect.rtype))
  : list reflect.StructField :=
  declared_from 0 fs.

(** A struct that embeds nothing and whose field names are distinct and not
    empty (as the names of a Go struct are, the blank name apart). *)
Definition plain_struct (fs : list (reflect.fieldDecl * reflect.rtype)) : Prop :=
  (forall p, p ∈ fs -> reflect.dEmbedded p.1 = false) ∧
  NoDup ((fun p => reflect.dName p.1) <$> fs) ∧
  (forall p, p ∈ fs -> reflect.dName p.1 ≠ "").

(** What [walk] does below a field, once it has visited it. *)
Definition descend (d : reflect.fieldDecl) (ft : reflect.rtype) (idx : list nat)
  (w : reflect.walker) : reflect.walker :=
  match (if reflect.dEmbedded d then reflect.embedded_struct ft else None) with
  | Some st => reflect.walk st idx w
  | None => w
  end.

(** The declared fields below a field. *)
Definition below (d : reflect.fieldDecl) (ft : reflect.rtype) (idx : list nat)
  : list reflect.StructField :=
  match (if reflect.dEmbedded d then reflect.embedded_struct ft else None) with
  | Some st => all_fields st idx
  | None => []
  end.

(** The declaration found by following the index path [index] from the
    fields [fs] of a struct: every step but the last goes through an embedded
    field whose type is a struct or a pointer to one. *)
Fixpoint decl_at (fs : list (reflect.fieldDecl * reflect.rtype)) (index : list nat)
  {struct index} : option (reflect.fieldDecl * reflect.rtype) :=
  match index with
  | [] => None
  | i :: rest =>
      match fs !! i with
      | Some (d, ft) =>
          match rest with
          | [] => Some (d, ft)
          | _ :: _ =>
              if reflect.dEmbedded d then
                match reflect.embedded_struct ft with
                | Some (reflect.TStruct fs') => decl_at fs' rest
                | _ => None
                end
              else None
          end
      | None => None
      end
  end.

(** Declaration order on index paths: the lexicographic order, a path
    coming before its extensions. *)
Inductive lex_lt : list nat -> list nat -> Prop :=
| lex_lt_nil (y : nat) (ys : list nat) : lex_lt [] (y :: ys)
| lex_lt_head (x y : nat) (xs ys : list nat) : x < y -> lex_lt (x :: xs) (y :: ys)
| lex_lt_tail (x : nat) (xs ys : list nat) : lex_lt xs ys -> lex_lt (x :: xs) (x :: ys).

(** [extends prefix i ix]: the path [ix] goes below [prefix] through a field
    at position [i] or later. *)
Definition extends (prefix : list nat) (i : nat) (ix : list nat) : Prop :=
  exists j rest, ix = prefix ++ j :: rest ∧ i <= j.

(** The fields of a struct type ([[]] for any other type). *)
Definition struct_fields (t : reflect.rtype) : list (reflect.fieldDecl * reflect.rtype) :=
  match t with
  | reflect.TStruct fs => fs
  | _ => []
  end.

(** *** What [Get] reads *)

(** What [Value.Interface] returns for an exported field of type [ft] that
    holds [x]: for a field of interface type what the interface holds, for
    any other field the declared type with the value. There is no result
    when a field of interface type holds something else than an interface
    value, which no Go program can bring about. *)
Definition interface_of (ft : reflect.rtype) (x : reflect.value) : option reflect.iface :=
  if decide (reflect.Type_Kind ft = reflect.Interface) then
    match x with
    | reflect.VIface c => Some c
    | _ => None
    end
  else Some (Some (ft, x)).

(** [read_path h fs y index]: the value found by following the index path
    [index] from the struct value [y] of fields [fs], the way
    [Value.FieldByIndex] does: into an embedded struct, and through an
    embedded pointer to a struct, which must not be nil, into the heap cell it
    points to. *)
Fixpoint read_path (h : reflect.heap) (fs : list (reflect.fieldDecl * reflect.rtype))
  (y : reflect.value) (index : list nat) {struct index} : option reflect.value :=
  match index with
  | [] => None
  | i :: rest =>
      match y with
      | reflect.VStruct vs =>
          match fs !! i, vs !! i with
          | Some (d, ft), Some z =>
              match rest with
              | [] => Some z
              | _ :: _ =>
                  match ft with
                  | reflect.TStruct fs' => read_path h fs' z rest
                  | reflect.TPtr (reflect.TStruct fs') =>
                      match z with
                      | reflect.VPtr b =>
                          match h !! b with
                          | Some y' => read_path h fs' y' rest
                          | None => None
                          end
                      | _ => None
                      end
                  | _ => None
                  end
              end
          | _, _ => None
          end
      | _ => None
      end
  end.

(** [nil_on_path h fs y index]: following [index] from [y], one comes to an
    embedded pointer to a struct that is nil, with more of the path to go. *)
Fixpoint nil_on_path (h : reflect.heap) (fs : list (reflect.fieldDecl * reflect.rtype))
  (y : reflect.value) (index : list nat) {struct index} : bool :=
  match index with
  | [] => false
  | i :: rest =>
      match y with
      | reflect.VStruct vs =>
          match fs !! i, vs !! i with
          | Some (d, ft), Some z =>
              match rest with
              | [] => false
              | _ :: _ =>
                  match ft with
                  | reflect.TStruct fs' => nil_on_path h fs' z rest
                  | reflect.TPtr (reflect.TStruct fs') =>
                      match z with
                      | reflect.VNil => true
                      | reflect.VPtr b =>
                          match h !! b with
                          | Some y' => nil_on_path h fs' y' rest
                          | None => false
                          end
                      | _ => false
                      end
                  | _ => false
                  end
              end
          | _, _ => false
          end
      | _ => false
      end
  end.


(** The struct value that [Get] reads: the wrapped struct or, for a wrapped
    pointer, what the pointer refers to at the time of the call. *)
Definition wrapped_struct (h : reflect.heap) (strct : reflect.iface) : option reflect.value :=
  match strct with
  | Some (reflect.TStruct _, v) => Some v
  | Some (reflect.TPtr (reflect.TStruct _), reflect.VPtr a) => h !! a
  | _ => None
  end.

(** What the field holds that the key [k] resolves to, in the value wrapped
    by [strct] as heap [h] has it: the field is the last of those that
    contribute [k], the struct is the one that [Get] reads, and the field is
    reached by its index path. *)
Definition key_value (h : reflect.heap) (strct : reflect.iface) (tag : string)
  (fs : list (reflect.fieldDecl * reflect.rtype)) (k : string) : option reflect.iface :=
  c ← last_with_key k (contributors tag (reflect.TStruct fs));
  y ← wrapped_struct h strct;
  x ← read_path h fs y (reflect.Index c.2);
  interface_of (reflect.Typ c.2) x.

(** [at_struct h first cur fs y]: the [reflect.Value] [cur] is the struct
    [y] of fields [fs], or (after the first step of [FieldByIndex]) a pointer
    to it; [flagStickyRO] is not set. *)
Definition at_struct (h : reflect.heap) (first : bool) (cur : reflect.Value)
  (fs : list (reflect.fieldDecl * reflect.rtype)) (y : reflect.value) : Prop :=
  exists embed,
    cur = Some (reflect.mkValue (reflect.TStruct fs) y false embed) ∨
    (first = false ∧
     exists a,
       cur = Some (reflect.mkValue (reflect.TPtr (reflect.TStruct fs))
                     (reflect.VPtr a) false embed) ∧
       h !! a = Some y).

(** The read-only flags of a field reached through fields that are all
    embedded, as [Value.Field] sets them for the declaration [d]. *)
Definition field_value (d : reflect.fieldDecl) (ft : reflect.rtype)
  (x : reflect.value) : reflect.rvalue :=
  reflect.mkValue ft x
    (negb (reflect.decl_exported d) && negb (reflect.dEmbedded d))
    (negb (reflect.decl_exported d) && reflect.dEmbedded d).

(** [seen_from l k]: [l] is [k] with some entries dropped and some hidden
    (name cleared), order kept. *)
Inductive seen_from : list reflect.StructField -> list reflect.StructField -> Prop :=
| seen_nil : seen_from [] []
| seen_skip (x : reflect.StructField) (l k : list reflect.StructField) :
    seen_from l k -> seen_from l (x :: k)
| seen_keep (x : reflect.StructField) (l k : list reflect.StructField) :
    seen_from l k -> seen_from (x :: l) (x :: k)
| seen_hidden (x : reflect.StructField) (l k : list reflect.StructField) :
    seen_from l k -> seen_from (reflect.hide x :: l) (x :: k).

(** The invariant that ties [byName] to [fields] in the walker. *)
Definition byName_ok (w : reflect.walker) : Prop :=
  (forall n j, reflect.byName w !! n = Some j -> j < length (reflect.fields w)) ∧
  (forall j e, reflect.fields w !! j = Some e -> reflect.Name e ≠ "" ->
     reflect.byName w !! reflect.Name e = Some j).

(** [byName] points at an entry that was added for a field of that name
    among the fields [P] walked so far. *)
Definition points_ok (w : reflect.walker) (P : list reflect.StructField) : Prop :=
  forall n j, reflect.byName w !! n = Some j ->
    exists e g0,
      reflect.fields w !! j = Some e ∧ g0 ∈ P ∧
      reflect.Name g0 = n ∧ reflect.Index g0 = reflect.Index e.

(** The entry that [byName] holds for the name [n] is at the least depth
    at which [P] has a field of that name, and it still carries the name
    exactly when every other such field is deeper. *)
Definition selects (w : reflect.walker) (P : list reflect.StructField)
  (n : string) : Prop :=
  match reflect.byName w !! n with
  | None => forall g, g ∈ P -> reflect.Name g ≠ n
  | Some j =>
      exists e, reflect.fields w !! j = Some e ∧
        (forall g, g ∈ P -> reflect.Name g = n ->
                   length (reflect.Index e) <= length (reflect.Index g)) ∧
        (reflect.Name e = n <->
         forall g, g ∈ P -> reflect.Name g = n ->
                   reflect.Index g ≠ reflect.Index e ->
                   length (reflect.Index e) < length (reflect.Index g))
  end.

(** The invariant of the walker after the fields [P]. *)
Definition walker_ok (w : reflect.walker) (P : list reflect.StructField) : Prop :=
  byName_ok w ∧ points_ok w P ∧ forall n, n ≠ "" -> selects w P n.

(** The adapter that [NewStructRecord] builds for a value whose struct type
    (after one dereference) is [st]. *)
Definition built_record (strct : reflect.iface) (tagName : list string)
  (st : reflect.rtype) : StructRecord :=
  {| tagName := first_tag tagName; record := strct;
     tags := (contributors (first_tag tagName) st).*1;
     tagsToName := insert_all (contributors (first_tag tagName) st) ∅ |}.

(** [p.F = x] for the field at position [i] of the struct in the heap cell
    [a]. *)
Definition store_field (h : reflect.heap) (a : reflect.addr) (i : nat)
  (x : reflect.value) : reflect.heap :=
  match h !! a with
  | Some (reflect.VStruct vs) => <[a := reflect.VStruct (<[i := x]> vs)]> h
  | _ => h
  end.

(** The struct value [y] with [x] stored at the index path [index], which
    stays inside the struct. *)
Fixpoint set_path (y : reflect.value) (index : list nat) (x : reflect.value)
  {struct index} : reflect.value :=
  match index with
  | [] => x
  | i :: rest =>
      match y with
      | reflect.VStruct vs =>
          match vs !! i with
          | Some z => reflect.VStruct (<[i := set_path z rest x]> vs)
          | None => y
          end
      | _ => y
      end
  end.

(** [p.F = x] for the field at the index path [index] inside the struct in
    the heap cell [a]: a field of the struct, or one promoted from the
    structs it embeds. *)
Definition store_path (h : reflect.heap) (a : reflect.addr) (index : list nat)
  (x : reflect.value) : reflect.heap :=
  match h !! a with
  | Some y => <[a := set_path y index x]> h
  | None => h
  end.

(** What [Value.Interface] returns for the values that the struct value [vs]
    holds in the fields of [fs] that contribute a key under [tag], from
    position [i], in declaration order. There is no result when [vs] has too
    few values or when a contributing field of interface type holds
    something else than an interface value. *)
Fixpoint contributing_values (tag : string) (i : nat)
  (fs : list (reflect.fieldDecl * reflect.rtype)) (vs : list reflect.value)
  : option (list reflect.iface) :=
  match fs with
  | [] => Some []
  | (d, ft) :: fs' =>
      match vs with
      | [] => None
      | x :: vs' =>
          rest ← contributing_values tag (S i) fs' vs';
          if included (reflect.field_of_decl d ft [i]) then
            match exposed_key tag (reflect.field_of_decl d ft [i]) with
            | Some _ => val ← interface_of ft x; Some (val :: rest)
            | None => Some rest
            end
          else Some rest
      end
  end.

(** ** Example structs *)

Definition exported (name : string) (tag : reflect.StructTag) : reflect.fieldDecl :=
  reflect.mkDecl name "" tag false.
Definition unexported (name : string) (tag : reflect.StructTag) : reflect.fieldDecl :=
  reflect.mkDecl name "message" tag false.
Definition embedded (name : string) : reflect.fieldDecl :=
  reflect.mkDecl name "" [] true.
Definition TInt : reflect.rtype := reflect.TOther reflect.OInt.
Definition TString : reflect.rtype := reflect.TOther reflect.OString.

(** [type Person struct { ID int `db:"id"`; Name string `db:"name,omitempty"`;
    secret string }] *)
Definition Person_fields : list (reflect.fieldDecl * reflect.rtype) :=
  [(exported "ID" [("db", "id")], TInt);
   (exported "Name" [("db", "name,omitempty")], TString);
   (unexported "secret" [], TString)].
Definition Person : reflect.rtype := reflect.TStruct Person_fields.
Definition alice : reflect.value :=
  reflect.VStruct [reflect.VInt 7; reflect.VString "alice"; reflect.VString "s3cret"].

(** [type Inner struct { X int }] and [type Outer struct { Inner; Y int }] *)
Definition Inner : reflect.rtype := reflect.TStruct [(exported "X" [], TInt)].

(** [type Pair struct { A int `db:"k"`; B int `db:"k"` }] *)
Definition Pair_fields : list (reflect.fieldDecl * reflect.rtype) :=
  [(exported "A" [("db", "k")], TInt); (exported "B" [("db", "k")], TInt)].
Definition Pair : reflect.rtype := reflect.TStruct Pair_fields.
Definition pair : reflect.value := reflect.VStruct [reflect.VInt 1; reflect.VInt 2].


(** [type Row struct { A int `db:"-"`; B int; C int `db:",omitempty"`;
    D int `db:"d"` }] *)
Definition Row_fields : list (reflect.fieldDecl * reflect.rtype) :=
  [(exported "A" [("db", "-")], TInt); (exported "B" [], TInt);
   (exported "C" [("db", ",omitempty")], TInt); (exported "D" [("db", "d")], TInt)].
Definition Row : reflect.rtype := reflect.TStruct Row_fields.
Definition row : reflect.value :=
  reflect.VStruct [reflect.VInt 1; reflect.VInt 2; reflect.VInt 3; reflect.VInt 4].

(** The heap in which the variable [alice] lives, at address 0. *)
Definition heap0 : reflect.heap := {[ 0 := alice ]}.



(** [type Shadow struct { *Inner; X int }], with a nil [*Inner]: its [X]
    hides the one of [Inner]. *)
Definition Shadow_fields : list (reflect.fieldDecl * reflect.rtype) :=
  [(embedded "Inner", reflect.TPtr Inner); (exported "X" [], TInt)].
Definition Shadow : reflect.rtype := reflect.TStruct Shadow_fields.
Definition shadow : reflect.value := reflect.VStruct [reflect.VNil; reflect.VInt 3].

(** The field [ID] of [Person], as [reflect] describes it. *)
Definition field_ID : reflect.StructField :=
  reflect.field_of_decl (exported "ID" [("db", "id")]) TInt [0].

(** [type Mid struct { *Inner }] and [type Deep struct { Mid; Z int }], with
    a nil [*Inner] inside [Mid]. *)
Definition Mid : reflect.rtype :=
  reflect.TStruct [(embedded "Inner", reflect.TPtr Inner)].
Definition Deep_fields : list (reflect.fieldDecl * reflect.rtype) :=
  [(embedded "Mid", Mid); (exported "Z" [], TInt)].
Definition Deep : reflect.rtype := reflect.TStruct Deep_fields.
Definition deep_nil : reflect.value :=
  reflect.VStruct [reflect.VStruct [reflect.VNil]; reflect.VInt 3].

(** [type Boxes struct { I interface{}; J interface{} }], with [I] holding
    the int 5 and [J] nil. *)
Definition TIface : reflect.rtype := reflect.TOther reflect.OInterface.
Definition Boxes_fields : list (reflect.fieldDecl * reflect.rtype) :=
  [(exported "I" [], TIface); (exported "J" [], TIface)].
Definition Boxes : reflect.rtype := reflect.TStruct Boxes_fields.
Definition boxes : reflect.value :=
  reflect.VStruct [reflect.VIface (Some (TInt, reflect.VInt 5)); reflect.VIface None].

(** [type Left struct { ID int }], [type Right struct { ID int }] and
    [type Both struct { Left; Right }]. *)
Definition Left : reflect.rtype := reflect.TStruct [(exported "ID" [], TInt)].
Definition Right : reflect.rtype := reflect.TStruct [(exported "ID" [], TInt)].
Definition Both_fields : list (reflect.fieldDecl * reflect.rtype) :=
  [(embedded "Left", Left); (embedded "Right", Right)].
Definition Both : reflect.rtype := reflect.TStruct Both_fields.
Definition both : reflect.value :=
  reflect.VStruct [reflect.VStruct [reflect.VInt 1]; reflect.VStruct [reflect.VInt 2]].

(** ** Properties of [strings.Split] *)

Section split.

Lemma append_String (a : ascii) (s t : string) :
  String a s +:+ t = String a (s +:+ t).
Proof. reflexivity. Qed.

Lemma append_Empty_r (s : string) : s +:+ EmptyString = s.
Proof. induction s as [|a s IH]; [done |]. by rewrite append_String, IH. Qed.

Lemma append_snoc_cons (cur : string) (c : ascii) (s : string) :
  (cur +:+ String c EmptyString) +:+ s = cur +:+ String c s.
Proof.
  induction cur as [|a cur IH]; [done |]. by rewrite !append_String, IH.
Qed.

Lemma split_from_head (cur s : string) (sep : ascii) :
  head (strings.split_from cur s sep) = Some (cur +:+ before sep s).
Proof.
  revert cur. induction s as [|c s IH]; intros cur; simpl.
  - by rewrite append_Empty_r.
  - destruct (decide (c = sep)) as [->|Hne]; simpl.
    + by rewrite append_Empty_r.
    + by rewrite IH, append_snoc_cons.
Qed.

(** [strings.Split(s, sep)[0]] never panics and is the part before the first
    separator. *)
Lemma Split_index0 (s : string) (sep : ascii) :
  slice_index (strings.Split s sep) 0 = Ok (before sep s).
Proof.
  unfold slice_index, strings.Split.
  pose proof (split_from_head EmptyString s sep) as H.
  destruct (strings.split_from EmptyString s sep) as [|x l]; simpl in *; [done |].
  by inversion H.
Qed.

Lemma before_app (sep : ascii) (a b : string) :
  contains_byte sep a = false ->
  before sep (a +:+ String sep b) = a.
Proof.
  induction a as [|c a IH]; intros H.
  - change (before sep (String sep b) = EmptyString). simpl. by rewrite decide_True.
  - rewrite append_String. simpl in *.
    destruct (decide (c = sep)); [done |]. by rewrite IH.
Qed.

Lemma before_comma (a b : string) :
  contains_byte "," a = false ->
  before "," (a +:+ "," +:+ b) = a.
Proof. apply before_app. Qed.

Lemma before_no_sep (sep : ascii) (s : string) :
  contains_byte sep s = false -> before sep s = s.
Proof.
  induction s as [|c s IH]; simpl; intros H; [done |].
  destruct (decide (c = sep)); [done |]. by rewrite IH.
Qed.

End split.

(** ** Properties of [extract] and of the loop over the fields *)

Section extract.

Lemma extract_spec (f : reflect.StructField) (tag : string) (m : gmap string string) :
  extract f tag m =
    Ok (match exposed_key tag f with
        | Some k => ([k], <[k := reflect.Name f]> m)
        | None => ([], m)
        end).
Proof.
  unfold extract, exposed_key.
  destruct (decide (tag ≠ "")) as [Hne|Heq].
  - rewrite decide_False by done. rewrite Split_index0. simpl.
    by destruct (decide _).
  - rewrite decide_True; [done |]. by destruct (decide (tag = "")).
Qed.

Lemma contributions_cons (tag : string) (sf : reflect.StructField)
  (rest : list reflect.StructField) :
  contributions tag (sf :: rest) =
    if included sf then
      match exposed_key tag sf with
      | Some k => (k, sf) :: contributions tag rest
      | None => contributions tag rest
      end
    else contributions tag rest.
Proof.
  unfold contributions. rewrite filter_cons.
  destruct (included sf); simpl; [| done].
  by destruct (exposed_key tag sf).
Qed.

Lemma extract_all_spec (sfs : list reflect.StructField) (tag : string)
  (ts : list string) (m : gmap string string) :
  extract_all sfs tag ts m =
    Ok (ts ++ (contributions tag sfs).*1, insert_all (contributions tag sfs) m).
Proof.
  revert ts m. induction sfs as [|sf rest IH]; intros ts m.
  - simpl. by rewrite app_nil_r.
  - rewrite contributions_cons. simpl. fold (included sf).
    destruct (included sf); [| apply IH].
    rewrite extract_spec. simpl.
    destruct (exposed_key tag sf) as [k|]; rewrite IH; simpl.
    + by rewrite <- app_assoc.
    + by rewrite app_nil_r.
Qed.

Lemma insert_all_lookup (cs : list (string * reflect.StructField))
  (m : gmap string string) (k : string) :
  insert_all cs m !! k =
    match last_with_key k cs with
    | Some c => Some (reflect.Name c.2)
    | None => m !! k
    end.
Proof.
  unfold insert_all, last_with_key.
  induction cs as [|c cs IH] using rev_ind; [done |].
  rewrite foldl_app, filter_app. simpl.
  rewrite filter_cons, filter_nil.
  destruct (decide (c.1 = k)) as [<-|Hne].
  - rewrite last_snoc. by rewrite lookup_insert_eq.
  - rewrite app_nil_r. by rewrite lookup_insert_ne.
Qed.

Lemma last_with_key_Some (k : string) (cs : list (string * reflect.StructField)) :
  k ∈ cs.*1 -> exists f, last_with_key k cs = Some (k, f) ∧ (k, f) ∈ cs.
Proof.
  intros Hin. unfold last_with_key.
  apply list_elem_of_fmap in Hin as [[k' f] [-> Hin]]. simpl.
  assert (Hf : (k', f) ∈ filter (fun c : string * reflect.StructField => c.1 = k') cs)
    by (by apply list_elem_of_filter).
  destruct (filter _ cs) as [|x l] eqn:E using rev_ind; [by apply elem_of_nil in Hf |].
  clear IHl. rewrite last_snoc.
  assert (Hx : x ∈ filter (fun c : string * reflect.StructField => c.1 = k') cs)
    by (rewrite E; apply elem_of_app; right; by apply list_elem_of_singleton).
  apply list_elem_of_filter in Hx as [Hk Hx]. destruct x as [k2 f2]. simpl in *. subst.
  by exists f2.
Qed.

Lemma last_with_key_None (k : string) (cs : list (string * reflect.StructField)) :
  k ∉ cs.*1 -> last_with_key k cs = None.
Proof.
  intros Hnin. unfold last_with_key.
  destruct (filter _ cs) as [|x l] eqn:E using rev_ind; [done |].
  exfalso. apply Hnin.
  assert (Hx : x ∈ filter (fun c : string * reflect.StructField => c.1 = k) cs)
    by (rewrite E; apply elem_of_app; right; by apply list_elem_of_singleton).
  apply list_elem_of_filter in Hx as [Hk Hx]. subst k.
  apply list_elem_of_fmap. by exists x.
Qed.

End extract.

(** ** What [NewStructRecord] returns *)

Section factory.

Lemma kind_of_other_not_Ptr (k : reflect.OtherKind) :
  reflect.kind_of_other k ≠ reflect.Ptr.
Proof. by destruct k. Qed.

Lemma kind_of_other_not_Struct (k : reflect.OtherKind) :
  reflect.kind_of_other k ≠ reflect.Struct.
Proof. by destruct k. Qed.

Lemma NewStructRecord_nil (tagName : list string) :
  NewStructRecord None tagName =
    Panic "runtime error: invalid memory address or nil pointer dereference".
Proof. reflexivity. Qed.

Lemma NewStructRecord_accepts (t st : reflect.rtype) (v : reflect.value)
  (tagName : list string) :
  struct_after_deref t = Some st ->
  NewStructRecord (Some (t, v)) tagName =
    Ok (built_record (Some (t, v)) tagName st, None).
Proof.
  intros Hst. unfold NewStructRecord, built_record, contributors, visible_fields.
  fold (first_tag tagName).
  destruct t as [k|[k|e|fs]|fs]; simplify_eq/=.
  - by rewrite extract_all_spec.
  - by rewrite extract_all_spec.
Qed.

Lemma NewStructRecord_rejects (t : reflect.rtype) (v : reflect.value)
  (tagName : list string) :
  struct_after_deref t = None ->
  NewStructRecord (Some (t, v)) tagName = Ok (zeroStructRecord, Some ErrNotAStruct).
Proof.
  intros Hst. unfold NewStructRecord.
  destruct t as [k|[k|e|fs]|fs]; simplify_eq/=.
  - rewrite decide_False by apply kind_of_other_not_Ptr. simpl.
    by rewrite decide_True by apply kind_of_other_not_Struct.
  - by rewrite decide_True by apply kind_of_other_not_Struct.
  - done.
Qed.

(** A successful call was given a struct, or a pointer to a struct, and
    returns [built_record]. *)
Lemma NewStructRecord_Ok_inv (strct : reflect.iface) (tagName : list string)
  (sr : StructRecord) :
  NewStructRecord strct tagName = Ok (sr, None) ->
  exists t v fs, strct = Some (t, v) ∧
    struct_after_deref t = Some (reflect.TStruct fs) ∧
    sr = built_record strct tagName (reflect.TStruct fs).
Proof.
  intros H. destruct strct as [[t v]|]; [| done].
  destruct (struct_after_deref t) as [st|] eqn:Hst.
  - rewrite (NewStructRecord_accepts _ _ _ _ Hst) in H.
    exists t, v, (struct_fields st).
    assert (st = reflect.TStruct (struct_fields st)) as <-
      by (destruct t as [k|[k|e|fs]|fs]; by simplify_eq/=).
    split_and!; [done | done | congruence].
  - by rewrite (NewStructRecord_rejects _ _ _ Hst) in H.
Qed.

End factory.

(** ** Properties of [reflect.VisibleFields] *)

Section visible.

Import reflect.

(** Induction on type descriptors along the recursion of [walk]: the
    hypothesis holds for the struct below every field. *)
Lemma embedded_ind (P : rtype -> Prop) :
  (forall k, P (TOther k)) ->
  (forall e, P (TPtr e)) ->
  (forall fs,
     Forall (fun p => forall st, embedded_struct p.2 = Some st -> P st) fs ->
     P (TStruct fs)) ->
  forall t, P t.
Proof.
  intros HO HP HS. fix IH 1. intros [k|e|fs].
  - apply HO.
  - apply HP.
  - apply HS. revert fs. fix go 1. intros [|[d ft] l].
    + constructor.
    + constructor; [| apply go].
      intros st. simpl. destruct ft as [k|e|fs'] eqn:Eft.
      * discriminate.
      * destruct e as [k|e'|fs''] eqn:Ee; try discriminate.
        intros [= <-]. rewrite <- Ee. apply IH.
      * intros [= <-]. rewrite <- Eft. apply IH.
Qed.

Lemma walk_fields_cons (index : list nat) (d : fieldDecl) (ft : rtype)
  (rest : list (fieldDecl * rtype)) (i : nat) (w : walker) :
  walk_fields walk index ((d, ft) :: rest) i w =
    walk_fields walk index rest (S i)
      (descend d ft (index ++ [i])
         (visit (field_of_decl d ft [i]) (index ++ [i]) w)).
Proof.
  unfold descend. simpl.
  destruct (dEmbedded d); [| done].
  by destruct ft as [k|[k|e|fs]|fs].
Qed.

Lemma all_fields_of_cons (index : list nat) (d : fieldDecl) (ft : rtype)
  (rest : list (fieldDecl * rtype)) (i : nat) :
  all_fields_of all_fields index ((d, ft) :: rest) i =
    field_of_decl d ft (index ++ [i])
    :: below d ft (index ++ [i]) ++ all_fields_of all_fields index rest (S i).
Proof.
  unfold below. simpl.
  destruct (dEmbedded d); [| done].
  by destruct ft as [k|[k|e|fs]|fs].
Qed.

(** *** [byName] points at the one entry that carries a name *)

Lemma byName_ok_empty : byName_ok {| byName := ∅; fields := [] |}.
Proof. split; intros ??; simpl; [by rewrite lookup_empty | by rewrite lookup_nil]. Qed.

Lemma hide_name (f : StructField) : Name (hide f) = "".
Proof. reflexivity. Qed.

Lemma byName_ok_hide (w : walker) (j : nat) (old : StructField) :
  byName_ok w ->
  byName_ok {| byName := byName w; fields := <[j := hide old]> (fields w) |}.
Proof.
  intros [Hlt Hname]. split; simpl.
  - intros n i Hn. rewrite length_insert. by eapply Hlt.
  - intros i e He Hne. destruct (decide (i = j)) as [->|Hij].
    + apply list_lookup_insert_Some in He as [(_ & <- & _)|(? & _)]; done.
    + rewrite list_lookup_insert_ne in He by done. by apply Hname.
Qed.

Lemma byName_ok_add (w : walker) (f : StructField) :
  byName_ok w ->
  (forall j e, fields w !! j = Some e -> Name e = Name f -> Name e = "") ->
  byName_ok {| byName := <[Name f := length (fields w)]> (byName w);
               fields := fields w ++ [f] |}.
Proof.
  intros [Hlt Hname] Hfresh. split; simpl.
  - intros n i Hn. rewrite length_app. simpl.
    apply lookup_insert_Some in Hn as [[_ <-]|[_ Hn]]; [lia |].
    apply Hlt in Hn. lia.
  - intros i e He Hne.
    apply lookup_app_Some in He as [He|[Hi He]].
    + rewrite lookup_insert_ne; [by apply Hname |].
      intros Heq. by apply Hne, (Hfresh i e).
    + apply list_lookup_singleton_Some in He as [Hz ->].
      replace i with (length (fields w)) by lia. by rewrite lookup_insert_eq.
Qed.

Lemma visit_byName_ok (f : StructField) (idx : list nat) (w : walker) :
  byName_ok w -> byName_ok (visit f idx w).
Proof.
  intros Hok. pose proof Hok as [Hlt Hname]. unfold visit.
  destruct (byName w !! Name f) as [oldIndex|] eqn:Hby.
  - destruct (fields w !! oldIndex) as [old|] eqn:Hold.
    + destruct (decide (length idx = length (Index old))).
      { by apply byName_ok_hide. }
      destruct (decide (length idx < length (Index old))); [| by destruct w].
      pose proof (byName_ok_hide w oldIndex old Hok) as Hok'.
      apply (byName_ok_add _ (with_index f idx) Hok').
      simpl. intros j e He Heq.
      destruct (decide (j = oldIndex)) as [->|Hj].
      * apply list_lookup_insert_Some in He as [(_ & <- & _)|(? & _)]; done.
      * rewrite list_lookup_insert_ne in He by done.
        destruct (decide (Name e = "")) as [|Hne]; [done |].
        apply Hname in He; [| done]. rewrite Heq, Hby in He. by simplify_eq.
    + apply Hlt in Hby. apply lookup_ge_None in Hold. lia.
  - apply (byName_ok_add w (with_index f idx) Hok).
    simpl. intros j e He Heq.
    destruct (decide (Name e = "")) as [|Hne]; [done |].
    apply Hname in He; [| done]. rewrite Heq, Hby in He. done.
Qed.

(** Whatever every [visit] keeps, [walk] keeps. *)
Lemma walk_keeps (P : walker -> Prop) :
  (forall f idx w, P w -> P (visit f idx w)) ->
  forall t idx w, P w -> P (walk t idx w).
Proof.
  intros Hvisit t. induction t as [k|e|fs IH] using embedded_ind;
    intros idx w Hw; [done | done |].
  simpl. generalize 0 as i. revert w Hw.
  induction fs as [|[d ft] fs IHfs]; intros w Hw i; [done |].
  rewrite walk_fields_cons. apply Forall_cons in IH as [IHft IH].
  apply IHfs; [done |].
  unfold descend. destruct (if dEmbedded d then embedded_struct ft else None) eqn:E.
  - destruct (dEmbedded d); [| done]. apply (IHft _ E). by apply Hvisit.
  - by apply Hvisit.
Qed.

Lemma walk_byName_ok (t : rtype) (idx : list nat) (w : walker) :
  byName_ok w -> byName_ok (walk t idx w).
Proof. apply walk_keeps. intros f i w'. apply visit_byName_ok. Qed.

(** The position recorded in [byName] always exists in [fields]: the branch
    of [visit] for a missing position is never taken. *)
Lemma walk_byName_lt (t : rtype) (n : string) (j : nat) :
  let w := walk t [] {| byName := ∅; fields := [] |} in
  byName w !! n = Some j -> is_Some (fields w !! j).
Proof.
  intros w Hn. apply lookup_lt_is_Some.
  destruct (walk_byName_ok t [] _ byName_ok_empty) as [Hlt _]. by eapply Hlt.
Qed.

(** *** The walker's fields are the declared ones, some dropped or hidden *)

Lemma hide_hide (f : StructField) : hide (hide f) = hide f.
Proof. reflexivity. Qed.

Lemma seen_from_nil_l (k : list StructField) : seen_from [] k.
Proof. induction k; [apply seen_nil | by apply seen_skip]. Qed.

Lemma seen_from_app (l1 l2 k1 k2 : list StructField) :
  seen_from l1 k1 -> seen_from l2 k2 -> seen_from (l1 ++ l2) (k1 ++ k2).
Proof.
  intros H1 H2. induction H1; simpl;
    [done | by apply seen_skip | by apply seen_keep | by apply seen_hidden].
Qed.

Lemma seen_from_hide (l k : list StructField) (j : nat) (old : StructField) :
  seen_from l k -> l !! j = Some old -> seen_from (<[j := hide old]> l) k.
Proof.
  intros H. revert j. induction H as [|x l k H IH|x l k H IH|x l k H IH]; intros j Hj.
  - by rewrite lookup_nil in Hj.
  - apply seen_skip. by apply IH.
  - destruct j as [|j]; simpl in *.
    + simplify_eq. by apply seen_hidden.
    + apply seen_keep. by apply IH.
  - destruct j as [|j]; simpl in *.
    + simplify_eq. rewrite hide_hide. by apply seen_hidden.
    + apply seen_hidden. by apply IH.
Qed.

Lemma visit_seen (f : StructField) (idx : list nat) (w : walker)
  (k : list StructField) :
  seen_from (fields w) k ->
  seen_from (fields (visit f idx w)) (k ++ [with_index f idx]).
Proof.
  intros H.
  assert (Hadd : forall l, seen_from l k ->
            seen_from (l ++ [with_index f idx]) (k ++ [with_index f idx])).
  { intros l Hl. apply seen_from_app; [done |]. apply seen_keep, seen_nil. }
  assert (Hskip : forall l, seen_from l k -> seen_from l (k ++ [with_index f idx])).
  { intros l Hl. rewrite <- (app_nil_r l). apply seen_from_app; [done |].
    apply seen_from_nil_l. }
  unfold visit.
  destruct (byName w !! Name f) as [oldIndex|]; [| by apply Hadd].
  destruct (fields w !! oldIndex) as [old|] eqn:Hold; [| by apply Hadd].
  destruct (decide (length idx = length (Index old))).
  { simpl. by apply Hskip, seen_from_hide. }
  destruct (decide (length idx < length (Index old))); simpl.
  - by apply Hadd, seen_from_hide.
  - by apply Hskip.
Qed.

Lemma walk_seen (t : rtype) (idx : list nat) (w : walker) (k : list StructField) :
  seen_from (fields w) k ->
  seen_from (fields (walk t idx w)) (k ++ all_fields t idx).
Proof.
  revert idx w k. induction t as [k0|e|fs IH] using embedded_ind;
    intros idx w k Hw; simpl; [by rewrite app_nil_r..|].
  generalize 0 as i. revert w k Hw.
  induction fs as [|[d ft] fs IHfs]; intros w k Hw i.
  - simpl. by rewrite app_nil_r.
  - rewrite walk_fields_cons, all_fields_of_cons.
    apply Forall_cons in IH as [IHft IH].
    replace (k ++ field_of_decl d ft (idx ++ [i])
               :: below d ft (idx ++ [i]) ++ all_fields_of all_fields idx fs (S i))
      with (((k ++ [field_of_decl d ft (idx ++ [i])]) ++ below d ft (idx ++ [i]))
              ++ all_fields_of all_fields idx fs (S i))
      by (by rewrite <- !app_assoc).
    apply IHfs; [done |].
    pose proof (visit_seen (field_of_decl d ft [i]) (idx ++ [i]) w k Hw) as Hv.
    unfold descend, below.
    destruct (if dEmbedded d then embedded_struct ft else None) as [st|] eqn:E.
    + destruct (dEmbedded d); [| done]. by apply (IHft _ E).
    + by rewrite app_nil_r.
Qed.

Lemma seen_from_visible (l k : list StructField) :
  seen_from l k -> filter (fun f => Name f ≠ "") l `sublist_of` k.
Proof.
  induction 1 as [|x l k H IH|x l k H IH|x l k H IH].
  - constructor.
  - by apply sublist_cons.
  - rewrite filter_cons. destruct (decide (Name x ≠ "")).
    + by apply sublist_skip.
    + by apply sublist_cons.
  - rewrite filter_cons. rewrite decide_False by (by intros []).
    by apply sublist_cons.
Qed.

(** The visible fields are declared fields, in declaration order. *)
Lemma visible_fields_sublist (fs : list (fieldDecl * rtype)) :
  visible_fields (TStruct fs) `sublist_of` all_fields (TStruct fs) [].
Proof.
  unfold visible_fields, VisibleFields.
  apply seen_from_visible.
  apply (walk_seen (TStruct fs) [] {| byName := ∅; fields := [] |} []).
  constructor.
Qed.

(** No two visible fields have the same name. *)
Lemma byName_ok_NoDup (w : walker) :
  byName_ok w -> NoDup (Name <$> filter (fun f => Name f ≠ "") (fields w)).
Proof.
  intros [_ Hname].
  assert (Hinj : forall i j e1 e2, fields w !! i = Some e1 -> fields w !! j = Some e2 ->
            Name e1 ≠ "" -> Name e1 = Name e2 -> i = j).
  { intros i j e1 e2 H1 H2 Hne Heq.
    pose proof (Hname i e1 H1 Hne) as Hi.
    assert (Hne2 : Name e2 ≠ "") by congruence.
    pose proof (Hname j e2 H2 Hne2) as Hj. rewrite Heq in Hi. congruence. }
  clear Hname. revert Hinj. generalize (fields w) as l.
  induction l as [|x l IHl]; intros Hinj; [constructor |].
  assert (Htl : NoDup (Name <$> filter (fun f => Name f ≠ "") l)).
  { apply IHl. intros i j e1 e2 H1 H2 Hne Heq.
    assert (S i = S j) by (by eapply (Hinj (S i) (S j)) ). lia. }
  rewrite filter_cons. destruct (decide (Name x ≠ "")) as [Hx|]; [| done].
  rewrite fmap_cons. constructor; [| done].
  intros Hin. apply list_elem_of_fmap in Hin as [y [Hy Hin]].
  apply list_elem_of_filter in Hin as [_ Hin].
  apply list_elem_of_lookup in Hin as [j Hj].
  assert (0 = S j) by (by eapply (Hinj 0 (S j) x y)). lia.
Qed.

Lemma visible_fields_NoDup (t : rtype) : NoDup (Name <$> visible_fields t).
Proof.
  unfold visible_fields, VisibleFields. destruct t; try constructor.
  apply byName_ok_NoDup, walk_byName_ok, byName_ok_empty.
Qed.

Lemma visible_fields_named (t : rtype) (f : StructField) :
  f ∈ visible_fields t -> Name f ≠ "".
Proof.
  unfold visible_fields, VisibleFields. destruct t; try by intros ?%elem_of_nil.
  by intros [? _]%list_elem_of_filter.
Qed.

(** *** Declaration order *)

Lemma lex_lt_app (p a b : list nat) : lex_lt a b -> lex_lt (p ++ a) (p ++ b).
Proof. intros H. induction p as [|x p IH]; [done |]. by apply lex_lt_tail. Qed.

Lemma lex_lt_irrefl (a : list nat) : ¬ lex_lt a a.
Proof. induction a as [|x a IH]; inversion 1; subst; [lia | done]. Qed.


Lemma extends_weaken (prefix : list nat) (i j : nat) (ix : list nat) :
  i <= j -> extends prefix j ix -> extends prefix i ix.
Proof. intros Hij (k & rest & -> & Hk). exists k, rest. split; [done | lia]. Qed.

Lemma extends_below (prefix : list nat) (i : nat) (ix : list nat) :
  extends (prefix ++ [i]) 0 ix -> extends prefix i ix.
Proof.
  intros (k & rest & -> & _). exists i, (k :: rest).
  split; [by rewrite <- app_assoc | done].
Qed.

Lemma lex_lt_below (prefix : list nat) (i : nat) (ix : list nat) :
  extends (prefix ++ [i]) 0 ix -> lex_lt (prefix ++ [i]) ix.
Proof.
  intros (k & rest & -> & _). rewrite <- !app_assoc. apply lex_lt_app. simpl.
  apply lex_lt_tail, lex_lt_nil.
Qed.

(** [all_fields] lists the fields in declaration order, all below [idx]. *)
Lemma all_fields_sorted (t : rtype) (idx : list nat) :
  Forall (extends idx 0) (Index <$> all_fields t idx) ∧
  StronglySorted lex_lt (Index <$> all_fields t idx).
Proof.
  revert idx. induction t as [k0|e|fs IH] using embedded_ind; intros idx; simpl;
    [split; constructor..|].
  generalize 0 as i.
  induction fs as [|[d ft] fs IHfs]; intros i; [split; constructor |].
  rewrite all_fields_of_cons. apply Forall_cons in IH as [IHft IH].
  destruct (IHfs IH (S i)) as [Hext Hsort].
  assert (Hbelow : Forall (extends (idx ++ [i]) 0) (Index <$> below d ft (idx ++ [i])) ∧
                   StronglySorted lex_lt (Index <$> below d ft (idx ++ [i]))).
  { unfold below.
    destruct (if dEmbedded d then embedded_struct ft else None) as [st|] eqn:E;
      [| split; constructor].
    destruct (dEmbedded d); [| done]. apply (IHft _ E). }
  destruct Hbelow as [Hbext Hbsort].
  rewrite fmap_cons, fmap_app. split.
  - constructor.
    { exists i, []. by split. }
    apply Forall_app. split.
    + eapply Forall_impl; [exact Hbext |]. intros ix. apply extends_below.
    + eapply Forall_impl; [exact Hext |]. intros ix. apply extends_weaken. lia.
  - apply StronglySorted_cons. split.
    + apply Forall_app. split.
      * eapply Forall_impl; [exact Hbext |]. intros ix. apply lex_lt_below.
      * eapply Forall_impl; [exact Hext |]. intros ix (k & rest & -> & Hk).
        apply lex_lt_app, lex_lt_head. lia.
    + apply StronglySorted_app. split_and!; [| done..].
      intros ix iy Hix Hiy.
      rewrite Forall_forall in Hbext, Hext.
      destruct (Hbext _ Hix) as (k & rest & -> & _).
      destruct (Hext _ Hiy) as (k' & rest' & -> & Hk').
      rewrite <- app_assoc. apply lex_lt_app, lex_lt_head. lia.
Qed.

Lemma StronglySorted_sublist {A} (R : relation A) (l k : list A) :
  l `sublist_of` k -> StronglySorted R k -> StronglySorted R l.
Proof.
  intros Hsub. induction Hsub as [|x l k Hsub IH|x l k Hsub IH]; intros Hk.
  - constructor.
  - apply StronglySorted_cons in Hk as [Hx Hk]. apply StronglySorted_cons.
    split; [| by apply IH].
    rewrite Forall_forall in *. intros y Hy. apply Hx.
    by apply (sublist_subseteq _ _ Hsub).
  - apply StronglySorted_cons in Hk as [_ Hk]. by apply IH.
Qed.

(** The visible fields come in declaration order. *)
Lemma visible_fields_sorted (t : rtype) :
  StronglySorted lex_lt (Index <$> visible_fields t).
Proof.
  destruct t as [k|e|fs]; [constructor..|].
  eapply StronglySorted_sublist.
  - apply fmap_sublist, visible_fields_sublist.
  - apply all_fields_sorted.
Qed.

(** *** Every listed field is a declared one, found at its index path *)

Lemma decl_at_below (d : fieldDecl) (ft : rtype) (fs fs' : list (fieldDecl * rtype))
  (j : nat) (rest : list nat) :
  dEmbedded d = true -> embedded_struct ft = Some (TStruct fs') ->
  decl_at ((d, ft) :: fs) (0 :: j :: rest) = decl_at fs' (j :: rest).
Proof. intros Hd Hft. simpl. by rewrite Hd, Hft. Qed.

Lemma decl_at_later (x : fieldDecl * rtype) (fs : list (fieldDecl * rtype))
  (j : nat) (rest : list nat) :
  decl_at (x :: fs) (S j :: rest) = decl_at fs (j :: rest).
Proof. reflexivity. Qed.

Lemma embedded_struct_is_struct (ft st : rtype) :
  embedded_struct ft = Some st -> st = TStruct (struct_fields st).
Proof. destruct ft as [k|[k|e|fs]|fs]; intros; by simplify_eq/=. Qed.

Lemma all_fields_declared (t : rtype) (idx : list nat) (f : StructField) :
  f ∈ all_fields t idx ->
  exists j rest d ft,
    decl_at (struct_fields t) (j :: rest) = Some (d, ft) ∧
    f = field_of_decl d ft (idx ++ j :: rest).
Proof.
  revert idx f. induction t as [k0|e|fs IH] using embedded_ind; intros idx f; simpl;
    [by intros ?%elem_of_nil..|].
  assert (Hloop : forall i, f ∈ all_fields_of all_fields idx fs i ->
            exists j rest d ft,
              decl_at fs (j :: rest) = Some (d, ft) ∧
              f = field_of_decl d ft (idx ++ (i + j) :: rest)).
  { induction fs as [|[d ft] fs IHfs]; intros i; [by intros ?%elem_of_nil |].
    rewrite all_fields_of_cons. apply Forall_cons in IH as [IHft IH].
    intros [->|[Hin|Hin]%elem_of_app]%elem_of_cons.
    - exists 0, [], d, ft. split; [done |]. by rewrite Nat.add_0_r.
    - unfold below in Hin.
      destruct (dEmbedded d) eqn:Hd; [| by apply elem_of_nil in Hin].
      destruct (embedded_struct ft) as [st|] eqn:E; [| by apply elem_of_nil in Hin].
      destruct (IHft _ E _ _ Hin) as (j & rest & d' & ft' & Hat & ->).
      exists 0, (j :: rest), d', ft'. split.
      + pose proof (embedded_struct_is_struct _ _ E) as Hst. rewrite Hst in E.
        by rewrite (decl_at_below _ _ _ _ _ _ Hd E).
      + by rewrite <- app_assoc, Nat.add_0_r.
    - destruct (IHfs IH (S i) Hin) as (j & rest & d' & ft' & Hat & ->).
      exists (S j), rest, d', ft'. split; [done |].
      by replace (i + S j) with (S i + j) by lia. }
  intros Hin. destruct (Hloop 0 Hin) as (j & rest & d & ft & Hat & ->).
  by exists j, rest, d, ft.
Qed.

(** *** Structs that embed nothing *)

Lemma Type_Field_declared (fs : list (fieldDecl * rtype)) (i : nat) (f : StructField) :
  declared_fields fs !! i = Some f <-> Type_Field (TStruct fs) i = Ok f.
Proof.
  unfold declared_fields. simpl.
  assert (Hgen : forall j, declared_from j fs !! i = Some f <->
            exists d ft, fs !! i = Some (d, ft) ∧ f = field_of_decl d ft [j + i]).
  { revert i. induction fs as [|[d ft] fs IH]; intros i j.
    - simpl. rewrite lookup_nil. split; [done | by intros (? & ? & ? & _)].
    - destruct i as [|i]; simpl.
      + rewrite Nat.add_0_r. split.
        * intros [= <-]. by exists d, ft.
        * intros (d' & ft' & [= <- <-] & ->). done.
      + rewrite IH. by replace (S j + i) with (j + S i) by lia. }
  rewrite Hgen. split.
  - intros (d & ft & -> & ->). done.
  - destruct (fs !! i) as [[d ft]|]; [| done]. intros [= <-]. by exists d, ft.
Qed.

Lemma walk_fields_plain (rest : list (fieldDecl * rtype)) (i : nat) (w : walker) :
  (forall p, p ∈ rest -> dEmbedded p.1 = false) ->
  NoDup ((fun p => dName p.1) <$> rest) ->
  (forall p, p ∈ rest -> byName w !! dName p.1 = None) ->
  fields (walk_fields walk [] rest i w) = fields w ++ declared_from i rest.
Proof.
  revert i w. induction rest as [|[d ft] rest IH]; intros i w Hflat Hnd Hfresh.
  - simpl. by rewrite app_nil_r.
  - rewrite walk_fields_cons. unfold descend.
    assert (Hd0 : dEmbedded d = false)
      by (apply (Hflat (d, ft)), elem_of_cons; by left).
    rewrite Hd0.
    rewrite fmap_cons in Hnd. apply NoDup_cons in Hnd as [Hd Hnd].
    assert (Hvisit : visit (field_of_decl d ft [i]) ([] ++ [i]) w =
              {| byName := <[dName d := length (fields w)]> (byName w);
                 fields := fields w ++ [field_of_decl d ft [i]] |}).
    { unfold visit. simpl.
      assert (Hnone : byName w !! dName d = None)
        by (apply (Hfresh (d, ft)), elem_of_cons; by left).
      by rewrite Hnone. }
    rewrite Hvisit, IH; [simpl; by rewrite <- app_assoc | | done |].
    + intros p Hp. apply Hflat, elem_of_cons. by right.
    + intros p Hp. simpl. rewrite lookup_insert_ne.
      * apply Hfresh, elem_of_cons. by right.
      * intros Heq. apply Hd. simpl. rewrite Heq.
        by apply (list_elem_of_fmap_2 (fun p => dName p.1)).
Qed.

(** The visible fields of a plain struct are its declared fields. *)
Lemma visible_fields_plain (fs : list (fieldDecl * rtype)) :
  plain_struct fs -> visible_fields (TStruct fs) = declared_fields fs.
Proof.
  intros (Hflat & Hnd & Hnames). unfold visible_fields, VisibleFields, declared_fields.
  simpl. rewrite walk_fields_plain by done. simpl.
  generalize 0 as i. induction fs as [|[d ft] fs IH]; intros i; [done |].
  simpl. rewrite filter_cons, decide_True.
  - f_equal. apply IH.
    + intros p Hp. apply Hflat, elem_of_cons. by right.
    + rewrite fmap_cons in Hnd. by apply NoDup_cons in Hnd as [_ Hnd].
    + intros p Hp. apply Hnames, elem_of_cons. by right.
  - simpl. apply (Hnames (d, ft)), elem_of_cons. by left.
Qed.

Lemma all_fields_of_lookup (prefix : list nat) (fs : list (fieldDecl * rtype))
  (i0 i : nat) (d : fieldDecl) (ft : rtype) :
  fs !! i = Some (d, ft) ->
  field_of_decl d ft (prefix ++ [i0 + i]) ∈ all_fields_of all_fields prefix fs i0 ∧
  (forall g, g ∈ below d ft (prefix ++ [i0 + i]) ->
             g ∈ all_fields_of all_fields prefix fs i0).
Proof.
  revert i0 i. induction fs as [|[d0 ft0] fs IH]; intros i0 i Hi; [done |].
  rewrite all_fields_of_cons. destruct i as [|i]; simpl in Hi.
  - simplify_eq. rewrite Nat.add_0_r. split.
    + apply list_elem_of_here.
    + intros g Hg. apply list_elem_of_further, elem_of_app. by left.
  - destruct (IH (S i0) i Hi) as [H1 H2].
    replace (i0 + S i) with (S i0 + i) by lia. split.
    + apply list_elem_of_further, elem_of_app. by right.
    + intros g Hg. apply list_elem_of_further, elem_of_app. right. by apply H2.
Qed.

(** The declaration found at an index path is one of the listed fields. *)
Lemma decl_at_all_fields (index : list nat) :
  forall (fs : list (fieldDecl * rtype)) (prefix : list nat) (d : fieldDecl) (ft : rtype),
    decl_at fs index = Some (d, ft) ->
    field_of_decl d ft (prefix ++ index) ∈ all_fields (TStruct fs) prefix.
Proof.
  induction index as [|i rest IH]; intros fs prefix d ft Hat; [done |].
  simpl in Hat. destruct (fs !! i) as [[d0 ft0]|] eqn:Hi; [| done].
  destruct (all_fields_of_lookup prefix fs 0 i d0 ft0 Hi) as [H1 H2]. simpl in H1, H2.
  destruct rest as [|j rest]; [by simplify_eq |].
  destruct (dEmbedded d0) eqn:Hd; [| done].
  destruct (embedded_struct ft0) as [[k|e|fs']|] eqn:Hst; try done.
  apply H2. unfold below. rewrite Hd, Hst.
  replace (prefix ++ i :: j :: rest) with ((prefix ++ [i]) ++ j :: rest)
    by (by rewrite <- app_assoc).
  by apply IH.
Qed.

(** A visible field is the declaration found at its index path. *)
Lemma visible_fields_declared (fs : list (fieldDecl * rtype)) (f : StructField) :
  f ∈ visible_fields (TStruct fs) ->
  exists d ft, decl_at fs (Index f) = Some (d, ft) ∧ f = field_of_decl d ft (Index f).
Proof.
  intros Hin.
  apply (sublist_subseteq _ _ (visible_fields_sublist fs)) in Hin.
  apply all_fields_declared in Hin as (j & rest & d & ft & Hat & ->).
  by exists d, ft.
Qed.

Lemma find_by_name (l : list StructField) (f : StructField) :
  NoDup (Name <$> l) -> f ∈ l ->
  find (fun g => bool_decide (Name g = Name f)) l = Some f.
Proof.
  induction l as [|g l IH]; intros Hnd Hin; [by apply elem_of_nil in Hin |].
  rewrite fmap_cons in Hnd. apply NoDup_cons in Hnd as [Hg Hnd]. simpl.
  apply elem_of_cons in Hin as [->|Hin].
  - by rewrite bool_decide_true.
  - rewrite bool_decide_false; [by apply IH |].
    intros Heq. apply Hg. rewrite Heq. by apply list_elem_of_fmap_2.
Qed.

(** *** Which fields are visible: the selector rule *)

Lemma Index_inj (P : list StructField) (g1 g2 : StructField) :
  NoDup (Index <$> P) -> g1 ∈ P -> g2 ∈ P -> Index g1 = Index g2 -> g1 = g2.
Proof.
  intros Hnd [i Hi]%list_elem_of_lookup [j Hj]%list_elem_of_lookup Heq.
  assert (i = j); [| congruence].
  eapply (NoDup_lookup _ i j (Index g1) Hnd).
  - by rewrite list_lookup_fmap, Hi.
  - rewrite list_lookup_fmap, Hj. simpl. by rewrite Heq.
Qed.

(** A visit leaves the entries of the other names alone. *)
Lemma visit_other (f : StructField) (idx : list nat) (w : walker) (P : list StructField)
  (n : string) :
  byName_ok w -> points_ok w P -> NoDup (Index <$> P) ->
  n ≠ Name f ->
  byName (visit f idx w) !! n = byName w !! n ∧
  forall j, byName w !! n = Some j -> fields (visit f idx w) !! j = fields w !! j.
Proof.
  intros [Hlt Hname] Hpts Hnd Hn.
  assert (Hkeep : forall j0 old j, byName w !! Name f = Some j0 ->
            byName w !! n = Some j ->
            <[j0 := hide old]> (fields w) !! j = fields w !! j).
  { intros j0 old j Hj0 Hj. apply list_lookup_insert_ne. intros <-.
    destruct (Hpts _ _ Hj0) as (e & g0 & He & Hg0 & Hn0 & Hi0).
    destruct (Hpts _ _ Hj) as (e' & g1 & He' & Hg1 & Hn1 & Hi1).
    assert (g0 = g1) by (eapply Index_inj; [done..|congruence]).
    congruence. }
  unfold visit.
  destruct (byName w !! Name f) as [j0|] eqn:Hby.
  - destruct (fields w !! j0) as [old|] eqn:Hold.
    + destruct (decide (length idx = length (Index old))); simpl.
      { split; [done |]. intros j Hj. by apply (Hkeep j0). }
      destruct (decide (length idx < length (Index old))); simpl.
      * split; [by rewrite lookup_insert_ne |].
        intros j Hj. rewrite lookup_app_l.
        -- by apply (Hkeep j0).
        -- rewrite length_insert. by eapply Hlt.
      * done.
    + simpl. split; [by rewrite lookup_insert_ne |].
      intros j Hj. rewrite lookup_app_l; [done | by eapply Hlt].
  - simpl. split; [by rewrite lookup_insert_ne |].
    intros j Hj. rewrite lookup_app_l; [done | by eapply Hlt].
Qed.

Lemma elem_of_snoc {A} (l : list A) (x y : A) : y ∈ l ++ [x] <-> y ∈ l ∨ y = x.
Proof. by rewrite elem_of_app, list_elem_of_singleton. Qed.

Lemma visit_points_ok (f : StructField) (idx : list nat) (w : walker)
  (P : list StructField) :
  byName_ok w -> points_ok w P -> NoDup (Index <$> P) ->
  points_ok (visit f idx w) (P ++ [with_index f idx]).
Proof.
  intros Hok Hpts Hnd n j Hn.
  destruct (decide (n = Name f)) as [->|Hne].
  - pose proof Hok as [Hlt _].
    assert (Hnew : forall l, length l = length (fields w) ->
              exists e g0, (l ++ [with_index f idx]) !! length l = Some e ∧
                g0 ∈ P ++ [with_index f idx] ∧ Name g0 = Name f ∧ Index g0 = Index e).
    { intros l Hl. exists (with_index f idx), (with_index f idx).
      split_and!; [| apply elem_of_app; right; apply list_elem_of_here | done..].
      rewrite lookup_app_r by lia. by rewrite Nat.sub_diag. }
    unfold visit in *.
    destruct (byName w !! Name f) as [j0|] eqn:Hby.
    + destruct (Hpts _ _ Hby) as (old & g0 & Hold & Hg0 & Hn0 & Hi0).
      rewrite Hold in *.
      destruct (decide (length idx = length (Index old))); simpl in *.
      { rewrite Hby in Hn. simplify_eq. exists (hide old), g0.
        split_and!; [| apply elem_of_app; by left | done..].
        apply list_lookup_insert_eq. by eapply lookup_lt_Some. }
      destruct (decide (length idx < length (Index old))); simpl in *.
      * rewrite lookup_insert_eq in Hn. simplify_eq.
        apply Hnew. by rewrite length_insert.
      * rewrite Hby in Hn. simplify_eq. exists old, g0.
        split_and!; [done | apply elem_of_app; by left | done..].
    + simpl in *. rewrite lookup_insert_eq in Hn. simplify_eq. by apply Hnew.
  - destruct (visit_other f idx w P n Hok Hpts Hnd Hne) as [Hby Hfs].
    rewrite Hby in Hn. destruct (Hpts _ _ Hn) as (e & g0 & He & Hg0 & Hn0 & Hi0).
    exists e, g0. split_and!; [by rewrite Hfs | apply elem_of_app; by left | done..].
Qed.

Lemma visit_selects (f : StructField) (idx : list nat) (w : walker)
  (P : list StructField) (n : string) :
  byName_ok w -> points_ok w P -> NoDup (Index <$> P) ->
  (forall g, g ∈ P -> Index g ≠ idx) ->
  n ≠ "" -> selects w P n ->
  selects (visit f idx w) (P ++ [with_index f idx]) n.
Proof.
  intros Hok Hpts Hnd Hfresh Hn Hsel.
  destruct (decide (n = Name f)) as [->|Hne].
  - pose proof Hok as [Hlt _].
    assert (Hnew : forall l, length l = length (fields w) ->
              (forall g, g ∈ P -> Name g = Name f -> length idx < length (Index g)) ->
              exists e, (l ++ [with_index f idx]) !! length l = Some e ∧
                (forall g, g ∈ P ++ [with_index f idx] -> Name g = Name f ->
                   length (Index e) <= length (Index g)) ∧
                (Name e = Name f <->
                 forall g, g ∈ P ++ [with_index f idx] -> Name g = Name f ->
                   Index g ≠ Index e -> length (Index e) < length (Index g))).
    { intros l Hl Hdeep. exists (with_index f idx).
      split_and!.
      - rewrite lookup_app_r by lia. by rewrite Nat.sub_diag.
      - intros g [Hg| ->]%elem_of_snoc Hname; simpl; [| lia].
        specialize (Hdeep g Hg Hname). lia.
      - split; [| done]. intros _ g [Hg| ->]%elem_of_snoc Hname Hidx;
          simpl in *; [by apply Hdeep | done]. }
    unfold selects, visit in *.
    destruct (byName w !! Name f) as [j0|] eqn:Hby.
    + destruct Hsel as (old & Hold & Hmin & Hvis).
      destruct (Hpts _ _ Hby) as (old' & g0 & Hold' & Hg0 & Hn0 & Hi0).
      assert (old' = old) as -> by congruence. clear Hold'. rewrite Hold.
      assert (Hidx : Index old ≠ idx) by (rewrite <- Hi0; by apply Hfresh).
      destruct (decide (length idx = length (Index old))) as [Heq|Hneq]; simpl.
      { rewrite Hby. exists (hide old). split_and!.
        - apply list_lookup_insert_eq. by eapply lookup_lt_Some.
        - intros g [Hg| ->]%elem_of_snoc Hname; simpl; [by apply Hmin | lia].
        - split; [done |]. intros Hstrict. exfalso.
          assert (length (Index old) < length idx); [| lia].
          apply (Hstrict (with_index f idx)); [| done | done].
          apply elem_of_app. right. apply list_elem_of_here. }
      destruct (decide (length idx < length (Index old))) as [Hlt'|Hge]; simpl.
      * rewrite lookup_insert_eq.
        apply Hnew; [by rewrite length_insert |].
        intros g Hg Hname. specialize (Hmin g Hg Hname). lia.
      * rewrite Hby. exists old. split_and!; [done | |].
        -- intros g [Hg| ->]%elem_of_snoc Hname; simpl; [by apply Hmin | lia].
        -- rewrite Hvis. split.
           ++ intros Hstrict g [Hg| ->]%elem_of_snoc Hname Hi;
                simpl in *; [by apply Hstrict | lia].
           ++ intros Hstrict g Hg. apply Hstrict, elem_of_app. by left.
    + simpl. rewrite lookup_insert_eq. apply Hnew; [done |].
      intros g Hg Hname. by destruct (Hsel g Hg).
  - destruct (visit_other f idx w P n Hok Hpts Hnd Hne) as [Hby Hfs].
    unfold selects in *. rewrite Hby.
    destruct (byName w !! n) as [j|] eqn:Hj.
    + destruct Hsel as (e & He & Hmin & Hvis). exists e. split_and!.
      * by rewrite Hfs.
      * intros g [Hg| ->]%elem_of_snoc Hname; [by apply Hmin |].
        simpl in Hname. congruence.
      * rewrite Hvis. split.
        -- intros Hstrict g [Hg| ->]%elem_of_snoc Hname Hi;
             [by apply Hstrict |]. simpl in Hname. congruence.
        -- intros Hstrict g Hg. apply Hstrict, elem_of_app. by left.
    + intros g [Hg| ->]%elem_of_snoc; [by apply Hsel |].
      simpl. congruence.
Qed.

Lemma visit_walker_ok (f : StructField) (idx : list nat) (w : walker)
  (P : list StructField) :
  NoDup (Index <$> (P ++ [with_index f idx])) ->
  walker_ok w P -> walker_ok (visit f idx w) (P ++ [with_index f idx]).
Proof.
  rewrite fmap_app. intros Hnd (Hok & Hpts & Hsel).
  apply NoDup_app in Hnd as (HndP & Hfresh & _).
  assert (Hfresh' : forall g, g ∈ P -> Index g ≠ idx).
  { intros g Hg Heq. apply (Hfresh (Index g)); [by apply list_elem_of_fmap_2 |].
    rewrite Heq. apply list_elem_of_here. }
  split_and!.
  - by apply visit_byName_ok.
  - by apply visit_points_ok.
  - intros n Hn. apply visit_selects; auto.
Qed.

Lemma walk_walker_ok (t : rtype) (idx : list nat) (w : walker) (P : list StructField) :
  NoDup (Index <$> (P ++ all_fields t idx)) ->
  walker_ok w P -> walker_ok (walk t idx w) (P ++ all_fields t idx).
Proof.
  revert idx w P. induction t as [k0|e|fs IH] using embedded_ind;
    intros idx w P Hnd Hw; simpl; [by rewrite app_nil_r..|].
  simpl in Hnd. revert Hnd. generalize 0 as i. revert w P Hw.
  induction fs as [|[d ft] fs IHfs]; intros w P Hw i Hnd.
  - simpl. by rewrite app_nil_r.
  - rewrite walk_fields_cons. rewrite all_fields_of_cons in *.
    apply Forall_cons in IH as [IHft IH].
    replace (P ++ field_of_decl d ft (idx ++ [i])
               :: below d ft (idx ++ [i]) ++ all_fields_of all_fields idx fs (S i))
      with (((P ++ [field_of_decl d ft (idx ++ [i])]) ++ below d ft (idx ++ [i]))
              ++ all_fields_of all_fields idx fs (S i)) in *
      by (by rewrite <- !app_assoc).
    apply IHfs; [done | | done].
    rewrite fmap_app in Hnd. apply NoDup_app in Hnd as (Hnd1 & _ & _).
    assert (Hv : walker_ok (visit (field_of_decl d ft [i]) (idx ++ [i]) w)
                   (P ++ [field_of_decl d ft (idx ++ [i])])).
    { apply (visit_walker_ok (field_of_decl d ft [i])); [| done].
      rewrite fmap_app in Hnd1. by apply NoDup_app in Hnd1 as (Hnd1 & _ & _). }
    unfold descend, below in *.
    destruct (if dEmbedded d then embedded_struct ft else None) as [st|] eqn:E.
    + destruct (dEmbedded d); [| done]. by apply (IHft _ E).
    + by rewrite app_nil_r.
Qed.

Lemma StronglySorted_NoDup {A} (R : relation A) (l : list A) :
  (forall x, ~ R x x) -> StronglySorted R l -> NoDup l.
Proof.
  intros Hirr. induction 1 as [|x l Hs IH Hx]; constructor; [| done].
  intros Hin. rewrite Forall_forall in Hx. by apply (Hirr x), Hx.
Qed.

Lemma all_fields_NoDup (t : rtype) (idx : list nat) :
  NoDup (Index <$> all_fields t idx).
Proof.
  eapply StronglySorted_NoDup; [apply lex_lt_irrefl | apply all_fields_sorted].
Qed.

(** Go's selector rule: the visible fields are the declared fields whose name
    is carried by no other declared field at the same depth or less. *)
Theorem visible_fields_selector (fs : list (fieldDecl * rtype)) (f : StructField) :
  f ∈ visible_fields (TStruct fs) <->
  f ∈ all_fields (TStruct fs) [] ∧ Name f ≠ "" ∧
  forall g, g ∈ all_fields (TStruct fs) [] -> Name g = Name f ->
            Index g ≠ Index f -> length (Index f) < length (Index g).
Proof.
  set (A := all_fields (TStruct fs) []).
  set (w := walk (TStruct fs) [] {| byName := ∅; fields := [] |}).
  assert (Hok : walker_ok w A).
  { apply (walk_walker_ok (TStruct fs) [] _ []); [apply all_fields_NoDup |].
    split_and!; [apply byName_ok_empty | |].
    { intros n j Hj. simpl in Hj. by rewrite lookup_empty in Hj. }
    intros n _. unfold selects. simpl. rewrite lookup_empty. by intros g ?%elem_of_nil. }
  destruct Hok as ((Hlt & Hname) & Hpts & Hsel).
  assert (Hvis : forall e, e ∈ visible_fields (TStruct fs) <-> Name e ≠ "" ∧ e ∈ fields w).
  { intros e. unfold visible_fields, VisibleFields.
    exact (list_elem_of_filter (fun f => Name f ≠ "") (fields w) e). }
  pose proof (visible_fields_sublist fs) as Hsub. apply sublist_subseteq in Hsub.
  pose proof (all_fields_NoDup (TStruct fs) []) as Hnd.
  split.
  - intros Hf. pose proof (Hsub _ Hf) as HfA.
    apply Hvis in Hf as [Hne [j Hj]%list_elem_of_lookup].
    split_and!; [done | done |].
    specialize (Hsel _ Hne). unfold selects in Hsel.
    rewrite (Hname _ _ Hj Hne) in Hsel. destruct Hsel as (e & He & _ & Hstrict).
    assert (e = f) as -> by congruence. by apply Hstrict.
  - intros (HfA & Hne & Hstrict).
    specialize (Hsel _ Hne). unfold selects in Hsel.
    destruct (byName w !! Name f) as [j|] eqn:Hby; [| by destruct (Hsel f HfA)].
    destruct Hsel as (e & He & Hmin & Hiff).
    destruct (Hpts _ _ Hby) as (e' & g0 & He' & Hg0 & Hn0 & Hi0).
    assert (e' = e) as -> by congruence. clear He'.
    assert (Hidx : Index e = Index f).
    { destruct (decide (Index g0 = Index f)) as [Heq|Hneq]; [congruence |].
      specialize (Hstrict g0 Hg0 Hn0 Hneq). specialize (Hmin f HfA eq_refl).
      rewrite Hi0 in Hstrict. lia. }
    assert (Hn : Name e = Name f).
    { apply Hiff. intros g Hg Hgn Hgi. rewrite Hidx in *. by apply Hstrict. }
    assert (HeV : e ∈ visible_fields (TStruct fs)).
    { apply Hvis. split; [congruence | by eapply list_elem_of_lookup_2]. }
    assert (e = f) as <-; [| done].
    eapply Index_inj; [exact Hnd | by apply Hsub | done | done].
Qed.

(** [FieldByName] finds the one field of that name that is declared at a
    depth where no other field of that name is at the same depth or less. *)
Corollary Type_FieldByName_selector (fs : list (fieldDecl * rtype)) (n : string)
  (f : StructField) :
  n ≠ "" ->
  Type_FieldByName (TStruct fs) n = Ok (Some f) <->
  f ∈ all_fields (TStruct fs) [] ∧ Name f = n ∧
  forall g, g ∈ all_fields (TStruct fs) [] -> Name g = n ->
            Index g ≠ Index f -> length (Index f) < length (Index g).
Proof.
  intros Hn. unfold Type_FieldByName.
  assert (Hvf : VisibleFields (TStruct fs) = Ok (visible_fields (TStruct fs))) by done.
  rewrite Hvf. cbn [mbind result_bind]. split.
  - intros [= Hfind]. apply find_some in Hfind as [Hin Hname].
    apply bool_decide_eq_true in Hname. apply list_elem_of_In in Hin.
    apply visible_fields_selector in Hin as (HA & _ & Hstrict).
    subst n. done.
  - intros (HA & <- & Hstrict).
    rewrite find_by_name; [done | apply visible_fields_NoDup |].
    by apply visible_fields_selector.
Qed.


End visible.

(** ** Reading fields of a value *)

Section reading.

Import reflect.

(** The step of [FieldByIndex] before [Field], at a struct or a pointer to
    one. *)
Lemma at_struct_step (h : heap) (first : bool) (cur : Value)
  (fs : list (fieldDecl * rtype)) (y : value) :
  at_struct h first cur fs y ->
  exists embed,
    (if first then Ok cur
     else
       match cur with
       | Some (mkValue (TPtr (TStruct _)) _ _ _) =>
           isnil ← Value_IsNil cur;
           if isnil : bool then
             Panic "reflect: indirection through nil pointer to embedded struct"
           else Value_Elem h cur
       | _ => Ok cur
       end) = Ok (Some (mkValue (TStruct fs) y false embed)).
Proof.
  intros [embed [->|(-> & a & -> & Ha)]]; exists embed.
  - by destruct first.
  - simpl. by rewrite Ha.
Qed.

Lemma FieldByIndex_loop_cons (h : heap) (first : bool) (v : Value) (x : nat)
  (rest : list nat) :
  FieldByIndex_loop h first v (x :: rest) =
    (v1 ← (if first then Ok v
           else
             match v with
             | Some (mkValue (TPtr (TStruct _)) _ _ _) =>
                 isnil ← Value_IsNil v;
                 if isnil : bool then
                   Panic "reflect: indirection through nil pointer to embedded struct"
                 else Value_Elem h v
             | _ => Ok v
             end);
     v2 ← Value_Field v1 x;
     FieldByIndex_loop h false v2 rest).
Proof. reflexivity. Qed.

Lemma Value_Field_struct (fs : list (fieldDecl * rtype)) (y : value)
  (sticky embed : bool) (i : nat) (d : fieldDecl) (ft : rtype) :
  fs !! i = Some (d, ft) ->
  Value_Field (Some (mkValue (TStruct fs) y sticky embed)) i =
    match y with
    | VStruct vs =>
        match vs !! i with
        | Some z =>
            Ok (Some (mkValue ft z
                        (sticky || (negb (decl_exported d) && negb (dEmbedded d)))
                        (negb (decl_exported d) && dEmbedded d)))
        | None => Panic "model: value is not of its type"
        end
    | _ => Panic "model: value is not of its type"
    end.
Proof. intros Hi. cbn [Value_Field]. by rewrite Hi. Qed.

Lemma read_path_cons (h : heap) (fs : list (fieldDecl * rtype)) (y : value)
  (i : nat) (rest : list nat) (d : fieldDecl) (ft : rtype) :
  fs !! i = Some (d, ft) ->
  read_path h fs y (i :: rest) =
    match y with
    | VStruct vs =>
        match vs !! i with
        | Some z =>
            match rest with
            | [] => Some z
            | _ :: _ =>
                match ft with
                | TStruct fs' => read_path h fs' z rest
                | TPtr (TStruct fs') =>
                    match z with
                    | VPtr b =>
                        match h !! b with
                        | Some y' => read_path h fs' y' rest
                        | None => None
                        end
                    | _ => None
                    end
                | _ => None
                end
            end
        | None => None
        end
    | _ => None
    end.
Proof. intros Hi. cbn [read_path]. rewrite Hi. by destruct y. Qed.

(** [FieldByIndex] returns exactly when the path can be followed, and then
    the field found, with the flags of its declaration. *)
Lemma FieldByIndex_loop_read (h : heap) (index : list nat) :
  forall (first : bool) (cur : Value) (fs : list (fieldDecl * rtype)) (y : value)
         (d : fieldDecl) (ft : rtype) (r : Value),
    at_struct h first cur fs y ->
    decl_at fs index = Some (d, ft) ->
    FieldByIndex_loop h first cur index = Ok r <->
    exists x, read_path h fs y index = Some x ∧ r = Some (field_value d ft x).
Proof.
  induction index as [|i rest IH]; intros first cur fs y d ft r Hcur Hat; [done |].
  simpl in Hat. destruct (fs !! i) as [[d0 ft0]|] eqn:Hi; [| done].
  destruct (at_struct_step _ _ _ _ _ Hcur) as [embed Hstep].
  rewrite FieldByIndex_loop_cons, Hstep. cbn [mbind result_bind].
  rewrite (Value_Field_struct _ _ _ _ _ _ _ Hi), (read_path_cons _ _ _ _ _ _ _ Hi).
  destruct y as [b|n|s0| |a|vs|c];
    try (split; [done | by intros (x & ? & _)]).
  destruct (vs !! i) as [z|] eqn:Hz; [| split; [done | by intros (x & ? & _)]].
  cbn [mbind result_bind].
  destruct rest as [|j rest].
  - simplify_eq. cbn [FieldByIndex_loop]. split.
    + intros [= <-]. by exists z.
    + by intros (x & [= <-] & ->).
  - destruct (dEmbedded d0) eqn:Hd; [| done].
    destruct (embedded_struct ft0) as [st|] eqn:Hst; [| done].
    pose proof (embedded_struct_is_struct _ _ Hst) as Est.
    destruct st as [k|e|fs']; [done | done |].
    rewrite andb_false_r. cbn [orb].
    destruct ft0 as [k|[k|e|fs'']|fs'']; try done; injection Hst as ->.
    + destruct z as [b|n|s0| |a|ws|c];
        try (rewrite FieldByIndex_loop_cons; split; [done | by intros (x & ? & _)]).
      destruct (h !! a) as [y'|] eqn:Ha.
      * apply (IH false _ fs' y' d ft r); [| done].
        exists (negb (decl_exported d0) && true). right. split; [done |]. by exists a.
      * rewrite FieldByIndex_loop_cons. cbn [Value_IsNil Value_Elem mbind result_bind].
        rewrite Ha. split; [done | by intros (x & ? & _)].
    + apply (IH false _ fs' z d ft r); [| done].
      exists (negb (decl_exported d0) && true). by left.
Qed.

Lemma Value_FieldByIndex_read (h : heap) (fs : list (fieldDecl * rtype)) (y : value)
  (index : list nat) (d : fieldDecl) (ft : rtype) (r : Value) :
  decl_at fs index = Some (d, ft) ->
  Value_FieldByIndex h (Some (mkValue (TStruct fs) y false false)) index = Ok r <->
  exists x, read_path h fs y index = Some x ∧ r = Some (field_value d ft x).
Proof.
  intros Hat. unfold Value_FieldByIndex.
  destruct index as [|i [|j rest]]; [done | |].
  - simpl in Hat. destruct (fs !! i) as [[d0 ft0]|] eqn:Hi; [| done]. simplify_eq.
    cbn [Value_Field read_path]. rewrite Hi.
    destruct y as [b|n|s0| |a|vs|c];
      try (split; [done | by intros (x & ? & _)]).
    destruct (vs !! i) as [z|]; [| split; [done | by intros (x & ? & _)]].
    split.
    + intros [= <-]. by exists z.
    + by intros (x & [= <-] & ->).
  - rewrite decide_True by done.
    apply (FieldByIndex_loop_read h _ true _ fs y d ft r); [| done].
    exists false. by left.
Qed.

(** [Interface] accepts the field of an exported declaration that is not
    embedded, and returns what [interface_of] describes. *)
Lemma Value_Interface_field (d : fieldDecl) (ft : rtype) (x : value) (i : iface) :
  dPkgPath d = "" ->
  Value_Interface (Some (field_value d ft x)) = Ok i <-> interface_of ft x = Some i.
Proof.
  intros Hexp. unfold Value_Interface, field_value, decl_exported, interface_of.
  cbn [flagStickyRO flagEmbedRO vtyp vdata]. rewrite bool_decide_true by done.
  cbn [negb andb orb].
  destruct (decide (Type_Kind ft = Interface)).
  - destruct x as [b|n|s0| |a|vs|c]; split; by intros [= <-].
  - split; by intros [= <-].
Qed.

(** A path that comes to a nil embedded pointer cannot be followed. *)
Lemma nil_on_path_read (h : heap) (index : list nat) :
  forall (fs : list (fieldDecl * rtype)) (y : value),
    nil_on_path h fs y index = true -> read_path h fs y index = None.
Proof.
  induction index as [|i rest IH]; intros fs y Hnil; [done |].
  cbn [nil_on_path read_path] in *.
  destruct y as [b|n|s0| |a|vs|c]; try done.
  destruct (fs !! i) as [[d ft]|]; [| done].
  destruct (vs !! i) as [z|]; [| done].
  destruct rest as [|j rest]; [done |].
  destruct ft as [k|[k|e|fs']|fs']; try done.
  - destruct z as [b|n|s0| |a|ws|c]; try done.
    destruct (h !! a) as [y'|]; [| done]. by apply IH.
  - by apply IH.
Qed.





End reading.

(** ** [Get] and [GetVals] *)

Section lookups.

Import reflect.

Lemma contributors_visible (tag : string) (st : rtype) (k : string) (f : StructField) :
  (k, f) ∈ contributors tag st ->
  f ∈ visible_fields st ∧ included f = true ∧ exposed_key tag f = Some k.
Proof.
  unfold contributors, contributions. intros Hin.
  apply list_elem_of_omap in Hin as (g & Hg & Hk).
  apply list_elem_of_filter in Hg as [Hinc Hg].
  destruct (exposed_key tag g) as [k'|] eqn:E; simplify_eq/=.
  split_and!; [done | by apply Is_true_true | done].
Qed.

(** A contributing field is declared, exported, at its index path. *)
Lemma contributor_visible_declared (fs : list (fieldDecl * rtype)) (tag : string)
  (k : string) (f : StructField) :
  (k, f) ∈ contributors tag (TStruct fs) ->
  exists d ft,
    decl_at fs (Index f) = Some (d, ft) ∧ f = field_of_decl d ft (Index f) ∧
    dPkgPath d = "".
Proof.
  intros (Hvis & Hinc & _)%contributors_visible.
  destruct (visible_fields_declared _ _ Hvis) as (d & ft & Hat & Hf).
  exists d, ft. split_and!; [done | done |].
  apply andb_true_iff in Hinc as [Hexp _]. unfold IsExported in Hexp.
  apply bool_decide_eq_true in Hexp. by rewrite Hf in Hexp.
Qed.

(** Every key of a built adapter is in the mapping, bound to the name of the
    last field that contributes it. *)
Lemma built_record_lookup (strct : iface) (tagName : list string) (st : rtype)
  (k : string) :
  k ∈ tags (built_record strct tagName st) ->
  exists f, last_with_key k (contributors (first_tag tagName) st) = Some (k, f) ∧
            (k, f) ∈ contributors (first_tag tagName) st ∧
            tagsToName (built_record strct tagName st) !! k = Some (Name f).
Proof.
  simpl. intros Hin.
  destruct (last_with_key_Some _ _ Hin) as (f & Hlast & Hf).
  exists f. split_and!; [done..|]. by rewrite insert_all_lookup, Hlast.
Qed.

Lemma built_record_lookup_inv (strct : iface) (tagName : list string) (st : rtype)
  (k name : string) :
  tagsToName (built_record strct tagName st) !! k = Some name ->
  exists f, last_with_key k (contributors (first_tag tagName) st) = Some (k, f) ∧
            (k, f) ∈ contributors (first_tag tagName) st ∧ name = Name f.
Proof.
  simpl. rewrite insert_all_lookup.
  destruct (decide (k ∈ (contributors (first_tag tagName) st).*1)) as [Hin|Hnin].
  - destruct (last_with_key_Some _ _ Hin) as (f & Hlast & Hf). rewrite Hlast.
    intros [= <-]. by exists f.
  - rewrite (last_with_key_None _ _ Hnin). by rewrite lookup_empty.
Qed.

(** [Get] on a key of the mapping reads the field at the index path of the
    field that the mapping names. *)
Lemma Get_built (h : heap) (strct : iface) (tagName : list string)
  (fs : list (fieldDecl * rtype)) (y : value) (k : string) (f : StructField) :
  Indirect h (ValueOf strct) = Ok (Some (mkValue (TStruct fs) y false false)) ->
  (k, f) ∈ contributors (first_tag tagName) (TStruct fs) ->
  tagsToName (built_record strct tagName (TStruct fs)) !! k = Some (Name f) ->
  Get h (built_record strct tagName (TStruct fs)) k =
    (x ← Value_FieldByIndex h (Some (mkValue (TStruct fs) y false false)) (Index f);
     i ← Value_Interface x; Ok (i, true)).
Proof.
  intros Hind Hf Hk. unfold Get. rewrite Hk.
  change (record (built_record strct tagName (TStruct fs))) with strct.
  rewrite Hind. cbn [mbind result_bind Value_FieldByName].
  apply contributors_visible in Hf as (Hvis & _ & _).
  unfold Type_FieldByName.
  assert (Hvf : VisibleFields (TStruct fs) = Ok (visible_fields (TStruct fs))) by done.
  rewrite Hvf. cbn [mbind result_bind].
  by rewrite (find_by_name _ _ (visible_fields_NoDup _) Hvis).
Qed.

(** What [Indirect] gives for the value that an adapter wraps. *)
Lemma Indirect_wrapped_Some (h : heap) (t : rtype) (v y : value)
  (fs : list (fieldDecl * rtype)) :
  struct_after_deref t = Some (TStruct fs) ->
  wrapped_struct h (Some (t, v)) = Some y ->
  Indirect h (ValueOf (Some (t, v))) = Ok (Some (mkValue (TStruct fs) y false false)).
Proof.
  intros Hst Hw. destruct t as [k|[k|e|fs']|fs']; simplify_eq/=.
  - destruct v as [b|n|s0| |a|vs|c]; try done.
    unfold Indirect. simpl. by rewrite Hw.
  - unfold Indirect. by rewrite decide_True.
Qed.

Lemma Indirect_wrapped_None (h : heap) (t : rtype) (v : value)
  (fs : list (fieldDecl * rtype)) (r : Value) :
  struct_after_deref t = Some (TStruct fs) ->
  wrapped_struct h (Some (t, v)) = None ->
  Indirect h (ValueOf (Some (t, v))) = Ok r -> r = None.
Proof.
  intros Hst Hw Hr. destruct t as [k|[k|e|fs']|fs']; simplify_eq/=.
  unfold Indirect in Hr. simpl in Hr.
  destruct v as [b|n|s0| |a|vs|c]; try done.
  - congruence.
  - by rewrite Hw in Hr.
Qed.

(** [Get] finds a key, and returns, exactly when the field that the key
    resolves to can be reached in the value that the adapter wraps; it
    returns what that field holds. *)
Lemma Get_key_value (h : heap) (t : rtype) (v : value) (tagName : list string)
  (fs : list (fieldDecl * rtype)) (k : string) (i : iface) :
  struct_after_deref t = Some (TStruct fs) ->
  Get h (built_record (Some (t, v)) tagName (TStruct fs)) k = Ok (i, true) <->
  key_value h (Some (t, v)) (first_tag tagName) fs k = Some i.
Proof.
  intros Hst. unfold key_value.
  destruct (decide (k ∈ tags (built_record (Some (t, v)) tagName (TStruct fs))))
    as [Hk|Hk].
  - destruct (built_record_lookup _ _ _ _ Hk) as (f & Hlast & Hf & Hm).
    rewrite Hlast. cbn [mbind option_bind snd].
    destruct (contributor_visible_declared fs (first_tag tagName) k f Hf)
      as (d & ft & Hat & Hfd & Hexp).
    assert (Htyp : Typ f = ft) by (by rewrite Hfd).
    destruct (wrapped_struct h (Some (t, v))) as [y|] eqn:Hw; cbn [mbind option_bind].
    + rewrite (Get_built h _ _ _ y k f (Indirect_wrapped_Some _ _ _ _ _ Hst Hw) Hf Hm).
      rewrite Htyp. split.
      * destruct (Value_FieldByIndex _ _ _) as [r|] eqn:Hr; [| done].
        apply (Value_FieldByIndex_read _ _ _ _ _ _ _ Hat) in Hr as (x & -> & ->).
        cbn [mbind result_bind option_bind].
        destruct (Value_Interface _) as [i'|] eqn:Hi; [| done].
        apply (Value_Interface_field _ _ _ _ Hexp) in Hi. cbn [mbind result_bind].
        by intros [= <-].
      * destruct (read_path h fs y (Index f)) as [x|] eqn:Hx; [| done].
        cbn [mbind option_bind]. intros Hi.
        assert (Hr : Value_FieldByIndex h (Some (mkValue (TStruct fs) y false false))
                       (Index f) = Ok (Some (field_value d ft x))).
        { apply (Value_FieldByIndex_read _ _ _ _ _ _ _ Hat). by exists x. }
        rewrite Hr. cbn [mbind result_bind].
        apply (Value_Interface_field _ _ _ _ Hexp) in Hi. by rewrite Hi.
    + split; [| done]. unfold Get. rewrite Hm.
      change (record (built_record (Some (t, v)) tagName (TStruct fs)))
        with (Some (t, v)).
      destruct (Indirect h (ValueOf (Some (t, v)))) as [r|] eqn:Hr; [| done].
      by rewrite (Indirect_wrapped_None _ _ _ _ _ Hst Hw Hr).
  - rewrite (last_with_key_None _ _ Hk). split; [| done].
    unfold Get. simpl. rewrite insert_all_lookup, (last_with_key_None _ _ Hk).
    by rewrite lookup_empty.
Qed.

(** The loop of [GetVals] returns the values that [Get] returns, key by
    key. *)
Lemma GetVals_loop_Some (h : heap) (sr : StructRecord) (keys : list string)
  (vals r : list iface) :
  GetVals_loop h sr keys vals = Ok (Some r) <->
  exists vs, r = vals ++ vs ∧ Forall2 (fun k v => Get h sr k = Ok (v, true)) keys vs.
Proof.
  revert vals. induction keys as [|k keys IH]; intros vals; simpl.
  - split.
    + intros [= <-]. exists []. by rewrite app_nil_r.
    + intros (vs & -> & ->%Forall2_nil_inv_l). by rewrite app_nil_r.
  - destruct (Get h sr k) as [[val [|]]|msg] eqn:Hget; simpl.
    + rewrite IH. split.
      * intros (vs & -> & Hvs). exists (val :: vs).
        split; [by rewrite <- app_assoc |]. by constructor.
      * intros (vs & -> & Hvs). apply Forall2_cons_inv_l in Hvs as (v' & vs' & Hv & Hvs & ->).
        rewrite Hget in Hv. injection Hv as <-.
        exists vs'. split; [by rewrite <- app_assoc | done].
    + split; [done |].
      intros (vs & -> & Hvs). apply Forall2_cons_inv_l in Hvs as (v' & vs' & Hv & Hvs & ->).
      congruence.
    + split; [done |].
      intros (vs & -> & Hvs). apply Forall2_cons_inv_l in Hvs as (v' & vs' & Hv & Hvs & ->).
      congruence.
Qed.

(** The loop of [GetVals] returns the nil slice only for a key that is not
    in the mapping. *)
Lemma GetVals_loop_None (h : heap) (sr : StructRecord) (keys : list string)
  (vals : list iface) :
  GetVals_loop h sr keys vals = Ok None ->
  exists k, k ∈ keys ∧ tagsToName sr !! k = None.
Proof.
  revert vals. induction keys as [|k keys IH]; intros vals; simpl; [done |].
  destruct (Get h sr k) as [[val [|]]|msg] eqn:Hget; simpl; [| | done].
  - intros (k' & Hk' & Hnone)%IH. exists k'. split; [apply elem_of_cons; by right | done].
  - intros _. exists k. split; [apply elem_of_cons; by left |].
    unfold Get in Hget. destruct (tagsToName sr !! k); [| done].
    destruct (Indirect h (ValueOf (record sr))) as [v0|]; simpl in Hget; [| done].
    destruct (Value_FieldByName h v0 s) as [f0|]; simpl in Hget; [| done].
    destruct (Value_Interface f0); simpl in Hget; done.
Qed.

End lookups.

(** ** The factory: which values are accepted *)

Section construction.

Import reflect.

(** Every input other than the nil interface is accepted exactly when its
    type, after at most one dereference, is a struct type, and is refused
    with [ErrNotAStruct] otherwise. *)
Lemma NewStructRecord_non_nil (t : rtype) (v : value) (tagName : list string) :
  ((exists sr, NewStructRecord (Some (t, v)) tagName = Ok (sr, None)) <->
   is_Some (struct_after_deref t)) ∧
  (struct_after_deref t = None ->
   NewStructRecord (Some (t, v)) tagName = Ok (zeroStructRecord, Some ErrNotAStruct)).
Proof.
  split; [| apply NewStructRecord_rejects].
  destruct (struct_after_deref t) as [st|] eqn:Hst.
  - rewrite (NewStructRecord_accepts _ _ _ _ Hst). split; [by eexists | by eexists].
  - rewrite (NewStructRecord_rejects _ _ _ Hst).
    split; [by intros [sr [=]] | by intros [? [=]]].
Qed.

(** C1, at the input on which the code departs from it. The nil interface
    holds no struct, so the claim asks for [ErrNotAStruct]; but
    [NewStructRecord(nil)] returns neither that error nor an adapter. On
    every other input the claim holds: an adapter exactly when the type is a
    struct after at most one dereference, else [ErrNotAStruct] and the zero
    adapter. *)
Theorem NewStructRecord_nil_no_error (tagName : list string) (sr : StructRecord) :
  NewStructRecord None tagName ≠ Ok (sr, Some ErrNotAStruct) ∧
  NewStructRecord None tagName ≠ Ok (sr, None) ∧
  forall t v,
    ((exists sr', NewStructRecord (Some (t, v)) tagName = Ok (sr', None)) <->
     is_Some (struct_after_deref t)) ∧
    (struct_after_deref t = None ->
     NewStructRecord (Some (t, v)) tagName = Ok (zeroStructRecord, Some ErrNotAStruct)).
Proof.
  rewrite NewStructRecord_nil. split_and!; [done | done |].
  intros t v. apply NewStructRecord_non_nil.
Qed.

(** C10. For the untyped nil, [reflect.TypeOf] gives the nil type, calling
    [Kind] on it panics, and so [NewStructRecord] panics whatever the tag
    name: it returns no adapter and no error. *)
Theorem NewStructRecord_not_total (tagName : list string) :
  TypeOf None = None ∧
  panics (on_type (TypeOf None) (fun t => Ok (Type_Kind t))) ∧
  panics (NewStructRecord None tagName) ∧
  ~ returns (NewStructRecord None tagName).
Proof.
  split_and!; [done | by eexists | by eexists |].
  intros [r Hr]. by rewrite NewStructRecord_nil in Hr.
Qed.

(** C8. Whatever [NewStructRecord] returns, every entry of [tags] has an
    entry in [tagsToName], and [GetVals] never returns the nil slice of its
    "should never happen" branch. *)
Theorem keys_have_mapping (strct : iface) (tagName : list string)
  (sr : StructRecord) (e : option error) :
  NewStructRecord strct tagName = Ok (sr, e) ->
  (forall k, k ∈ tags sr -> is_Some (tagsToName sr !! k)) ∧
  (forall h, GetVals h sr ≠ Ok None).
Proof.
  intros H.
  assert (Hkeys : forall k, k ∈ tags sr -> is_Some (tagsToName sr !! k)).
  { destruct strct as [[t v]|]; [| done].
    destruct (struct_after_deref t) as [st|] eqn:Hst.
    - rewrite (NewStructRecord_accepts _ _ _ _ Hst) in H. simplify_eq.
      intros k Hk. destruct (built_record_lookup _ _ _ _ Hk) as (f & _ & _ & ->).
      by eexists.
    - rewrite (NewStructRecord_rejects _ _ _ Hst) in H. simplify_eq.
      by intros k ?%elem_of_nil. }
  split; [done |].
  intros h Hnone. apply GetVals_loop_None in Hnone as (k & Hk & Hno).
  apply Hkeys in Hk as [name Hname]. congruence.
Qed.

Lemma keys_have_mapping_witness :
  NewStructRecord (Some (Person, alice)) ["db"]
    = Ok (built_record (Some (Person, alice)) ["db"] Person, None) ∧
  (forall k, k ∈ ["id"; "name"] ->
     is_Some (tagsToName (built_record (Some (Person, alice)) ["db"] Person) !! k)) ∧
  GetVals ∅ (built_record (Some (Person, alice)) ["db"] Person) ≠ Ok None.
Proof.
  assert (H : NewStructRecord (Some (Person, alice)) ["db"]
                = Ok (built_record (Some (Person, alice)) ["db"] Person, None))
    by (vm_compute; reflexivity).
  split; [exact H |].
  destruct (keys_have_mapping _ _ _ _ H) as [Hkeys Hvals].
  split; [exact Hkeys | exact (Hvals ∅)].
Defined.

(** C6. Under a tag namespace, when the field's tag value is [a,b] with no
    comma in [a], [extract] uses [a] alone: [a] is the key (unless [a] is
    empty or "-", which excludes the field), the field contributes no other
    key to an adapter, and a usable [a] is among the adapter's keys. *)
Theorem key_is_part_before_comma (f : StructField) (tag a b : string)
  (m : gmap string string) :
  tag ≠ "" ->
  StructTag_Get (Tag f) tag = a +:+ "," +:+ b ->
  contains_byte "," a = false ->
  extract f tag m =
    Ok (if decide (a = "" ∨ a = "-") then ([], m) else ([a], <[a := Name f]> m)) ∧
  forall t v fs tagName sr,
    first_tag tagName = tag ->
    struct_after_deref t = Some (TStruct fs) ->
    NewStructRecord (Some (t, v)) tagName = Ok (sr, None) ->
    (forall k, (k, f) ∈ contributors tag (TStruct fs) -> k = a) ∧
    (f ∈ visible_fields (TStruct fs) -> included f = true -> a ≠ "" -> a ≠ "-" ->
     a ∈ GetKeys sr ∧ is_Some (tagsToName sr !! a)).
Proof.
  intros Htag Hget Hcomma.
  assert (Hkey : exposed_key tag f = if decide (a = "" ∨ a = "-") then None else Some a).
  { unfold exposed_key. rewrite decide_False by done.
    by rewrite Hget, before_comma. }
  split.
  { rewrite extract_spec, Hkey. by destruct (decide _). }
  intros t v fs tagName sr <- Hst Hsr.
  rewrite (NewStructRecord_accepts _ _ _ _ Hst) in Hsr. simplify_eq.
  split.
  - intros k (_ & _ & Hk)%contributors_visible. rewrite Hkey in Hk.
    destruct (decide _); by simplify_eq.
  - intros Hvis Hinc Ha1 Ha2.
    assert (Hin : (a, f) ∈ contributors (first_tag tagName) (TStruct fs)).
    { unfold contributors, contributions. apply list_elem_of_omap. exists f. split.
      - apply list_elem_of_filter. split; [by apply Is_true_true | done].
      - rewrite Hkey. rewrite decide_False by (by intros [|]). done. }
    assert (Hk : a ∈ GetKeys (built_record (Some (t, v)) tagName (TStruct fs))).
    { apply list_elem_of_fmap. by exists (a, f). }
    split; [done |].
    destruct (built_record_lookup (Some (t, v)) tagName (TStruct fs) a Hk)
      as (g & _ & _ & ->).
    by eexists.
Qed.

Lemma key_is_part_before_comma_witness :
  "db" ≠ "" ∧
  StructTag_Get [("db", "name,omitempty")] "db" = "name" +:+ "," +:+ "omitempty" ∧
  contains_byte "," "name" = false ∧
  extract (field_of_decl (exported "Name" [("db", "name,omitempty")]) TString [1])
    "db" ∅ = Ok (["name"], <["name" := "Name"]> ∅).
Proof.
  split; [done |]. split; [reflexivity |]. split; [reflexivity |].
  exact (proj1 (key_is_part_before_comma
    (field_of_decl (exported "Name" [("db", "name,omitempty")]) TString [1])
    "db" "name" "omitempty" ∅ ltac:(done) eq_refl eq_refl)).
Defined.

End construction.

(** ** An adapter built for a struct *)

Section adapter.

Import reflect.

Variables (t : rtype) (v : value) (fs : list (fieldDecl * rtype)).
Variables (tagName : list string) (sr : StructRecord).

Hypothesis Hstruct : struct_after_deref t = Some (TStruct fs).
Hypothesis Hbuilt : NewStructRecord (Some (t, v)) tagName = Ok (sr, None).

Lemma sr_built : sr = built_record (Some (t, v)) tagName (TStruct fs).
Proof using Hstruct Hbuilt.
  rewrite (NewStructRecord_accepts _ _ _ _ Hstruct) in Hbuilt. congruence.
Qed.


Lemma contributor_declared (k : string) (f : StructField) :
  (k, f) ∈ contributors (first_tag tagName) (TStruct fs) ->
  exists d ft,
    decl_at fs (Index f) = Some (d, ft) ∧ f = field_of_decl d ft (Index f) ∧
    dPkgPath d = "" ∧ dEmbedded d = false ∧
    exposed_key (first_tag tagName) (field_of_decl d ft (Index f)) = Some k.
Proof.
  intros (Hvis & Hinc & Hkey)%contributors_visible.
  destruct (visible_fields_declared _ _ Hvis) as (d & ft & Hat & Hf).
  exists d, ft. rewrite <- Hf. split_and!; [done | done | | | done].
  - apply andb_true_iff in Hinc as [Hexp _]. unfold IsExported in Hexp.
    apply bool_decide_eq_true in Hexp. by rewrite Hf in Hexp.
  - apply andb_true_iff in Hinc as [_ Hanon]. apply negb_true_iff in Hanon.
    by rewrite Hf in Hanon.
Qed.


Lemma contributions_sublist (tag : string) (vf : list StructField) :
  (contributions tag vf).*2 `sublist_of` vf.
Proof.
  induction vf as [|f vf IH]; [constructor |].
  rewrite contributions_cons. destruct (included f); [| by apply sublist_cons].
  destruct (exposed_key tag f); [| by apply sublist_cons].
  rewrite fmap_cons. by apply sublist_skip.
Qed.

Lemma contributors_iff (k : string) (f : StructField) :
  (k, f) ∈ contributors (first_tag tagName) (TStruct fs) <->
  f ∈ visible_fields (TStruct fs) ∧ included f = true ∧
  exposed_key (first_tag tagName) f = Some k.
Proof.
  split; [apply contributors_visible |].
  intros (Hvis & Hinc & Hkey). unfold contributors, contributions.
  apply list_elem_of_omap. exists f. split.
  - apply list_elem_of_filter. split; [by apply Is_true_true | done].
  - by rewrite Hkey.
Qed.

(** C4. [GetKeys] lists the keys of the contributing fields, which are the
    visible fields that are exported, not embedded and not excluded by their
    tag, in the order in which the struct type declares them (the order of
    their index paths); for a struct that embeds nothing these are the keys
    of its declared fields, one after the other; [GetVals] lists what [Get]
    returns for each key, in the same order. *)
Theorem GetKeys_declaration_order :
  let cs := contributors (first_tag tagName) (TStruct fs) in
  GetKeys sr = cs.*1 ∧
  StronglySorted lex_lt (Index <$> cs.*2) ∧
  (forall k f, (k, f) ∈ cs <->
     f ∈ visible_fields (TStruct fs) ∧ included f = true ∧
     exposed_key (first_tag tagName) f = Some k) ∧
  (forall k f, (k, f) ∈ cs ->
     exists d ft, decl_at fs (Index f) = Some (d, ft) ∧ f = field_of_decl d ft (Index f)) ∧
  (plain_struct fs ->
     GetKeys sr = (contributions (first_tag tagName) (declared_fields fs)).*1) ∧
  (forall h vals, GetVals h sr = Ok (Some vals) ->
     Forall2 (fun k val => Get h sr k = Ok (val, true)) (GetKeys sr) vals).
Proof using Hstruct Hbuilt.
  intros cs. split_and!.
  - by rewrite sr_built.
  - eapply StronglySorted_sublist; [| apply (visible_fields_sorted (TStruct fs))].
    apply fmap_sublist, contributions_sublist.
  - apply contributors_iff.
  - intros k f Hf.
    destruct (contributor_declared _ _ Hf) as (d & ft & Hat & Hfd & _).
    by exists d, ft.
  - intros Hplain. rewrite sr_built. simpl. unfold contributors.
    by rewrite (visible_fields_plain _ Hplain).
  - intros h vals Hvals. apply GetVals_loop_Some in Hvals as (vs & -> & Hvs). done.
Qed.

(** C5, amended. [GetVals] returns a slice exactly on a call in which the
    field of every key can be reached in the wrapped value (a wrapped pointer
    is not nil, and no embedded pointer on the index path of a key's field is
    nil; nothing is asked when there are no keys, or of an embedded pointer
    that no key's path goes through). Whenever it returns a slice, the slice
    has as many values as there are keys, and its [i]-th value is what [Get]
    returns, with [found = true], for the [i]-th key: what the key's field
    holds. *)
Theorem GetVals_matches_GetKeys (h : heap) :
  ((forall k, k ∈ GetKeys sr ->
      is_Some (key_value h (Some (t, v)) (first_tag tagName) fs k)) <->
   exists vals, GetVals h sr = Ok (Some vals)) ∧
  forall vals,
    GetVals h sr = Ok (Some vals) ->
    length vals = length (GetKeys sr) ∧
    forall i k, GetKeys sr !! i = Some k ->
      exists val, vals !! i = Some val ∧ Get h sr k = Ok (val, true) ∧
                  key_value h (Some (t, v)) (first_tag tagName) fs k = Some val.
Proof using Hstruct Hbuilt.
  rewrite sr_built.
  set (sr' := built_record (Some (t, v)) tagName (TStruct fs)).
  assert (Hpoint : forall vals, GetVals h sr' = Ok (Some vals) ->
            length vals = length (GetKeys sr') ∧
            forall i k, GetKeys sr' !! i = Some k ->
              exists val, vals !! i = Some val ∧ Get h sr' k = Ok (val, true) ∧
                key_value h (Some (t, v)) (first_tag tagName) fs k = Some val).
  { intros vals Hvals. apply GetVals_loop_Some in Hvals as (vs & -> & Hvs).
    split; [symmetry; by eapply Forall2_length |].
    intros i k Hk.
    destruct (Forall2_lookup_l _ _ _ _ _ Hvs Hk) as (val & Hval & Hget).
    exists val. split_and!; [done | done |].
    by apply (Get_key_value h t v tagName fs k val Hstruct). }
  split; [| done]. split.
  - intros Hreach.
    assert (Hall : forall keys, (forall k, k ∈ keys -> k ∈ tags sr') ->
              exists vs, Forall2 (fun k val => Get h sr' k = Ok (val, true)) keys vs).
    { induction keys as [|k keys IH]; intros Hsub; [by exists [] |].
      destruct IH as [vs Hvs]; [intros k' Hk'; apply Hsub, elem_of_cons; by right |].
      destruct (Hreach k) as [val Hval]; [apply Hsub, elem_of_cons; by left |].
      apply (Get_key_value h t v tagName fs k val Hstruct) in Hval.
      exists (val :: vs). by constructor. }
    destruct (Hall (tags sr')) as [vals Hvals]; [done |].
    exists vals. apply GetVals_loop_Some. by exists vals.
  - intros [vals Hvals] k [i Hi]%list_elem_of_lookup.
    destruct (Hpoint vals Hvals) as [_ Hp].
    destruct (Hp i k Hi) as (val & _ & _ & Hval). by exists val.
Qed.

(** C7. Under a tag namespace, a field whose tag value, cut at the first
    comma, is empty or "-" is excluded entirely: [extract] adds nothing for
    it, it contributes no key and no mapping entry names it; and neither the
    empty string nor "-" is ever a key of the adapter or of its mapping. *)
Theorem excluded_tag_values :
  first_tag tagName ≠ "" ->
  ("" ∉ GetKeys sr) ∧ ("-" ∉ GetKeys sr) ∧
  tagsToName sr !! "" = None ∧ tagsToName sr !! "-" = None ∧
  forall f x,
    f ∈ visible_fields (TStruct fs) ->
    slice_index (strings.Split (StructTag_Get (Tag f) (first_tag tagName)) ",") 0 = Ok x ->
    x = "" ∨ x = "-" ->
    (forall m, extract f (first_tag tagName) m = Ok ([], m)) ∧
    (forall k, (k, f) ∉ contributors (first_tag tagName) (TStruct fs)) ∧
    (forall k, tagsToName sr !! k ≠ Some (Name f)).
Proof using Hstruct Hbuilt.
  intros Htag. rewrite sr_built.
  assert (Hkeys : forall k f, (k, f) ∈ contributors (first_tag tagName) (TStruct fs) ->
            k ≠ "" ∧ k ≠ "-").
  { intros k f (_ & _ & Hk)%contributors_visible. unfold exposed_key in Hk.
    rewrite decide_False in Hk by done.
    destruct (decide _) as [|Hne]; [done |]. simplify_eq.
    split; intros Heq; apply Hne; [by left | by right]. }
  assert (Hnot : forall k, k = "" ∨ k = "-" ->
            k ∉ (contributors (first_tag tagName) (TStruct fs)).*1).
  { intros k Hk Hin. apply list_elem_of_fmap in Hin as [[k' f] [-> Hin]].
    apply Hkeys in Hin as [? ?]. simpl in Hk. by destruct Hk. }
  split_and!.
  - apply Hnot. by left.
  - apply Hnot. by right.
  - simpl. rewrite insert_all_lookup, last_with_key_None; [done |]. apply Hnot. by left.
  - simpl. rewrite insert_all_lookup, last_with_key_None; [done |]. apply Hnot. by right.
  - intros f x Hvis Hx Hexcl. rewrite Split_index0 in Hx. injection Hx as <-.
    assert (Hnone : exposed_key (first_tag tagName) f = None).
    { unfold exposed_key. rewrite decide_False by done. by rewrite decide_True. }
    split_and!.
    + intros m. by rewrite extract_spec, Hnone.
    + intros k (_ & _ & Hk)%contributors_visible. congruence.
    + intros k Hk.
      destruct (built_record_lookup_inv (Some (t, v)) tagName (TStruct fs) k _ Hk)
        as (g & _ & Hg & Hname).
      apply contributors_visible in Hg as (Hgvis & _ & Hgk).
      assert (g = f) as ->; [| congruence].
      pose proof (visible_fields_NoDup (TStruct fs)) as Hnd.
      apply list_elem_of_lookup in Hgvis as [i Hi].
      apply list_elem_of_lookup in Hvis as [j Hj].
      assert (i = j); [| congruence].
      eapply (NoDup_lookup _ i j (Name f) Hnd).
      * rewrite list_lookup_fmap, Hi. simpl. congruence.
      * by rewrite list_lookup_fmap, Hj.
Qed.

End adapter.

(** ** Key collisions *)

Section collisions.

Import reflect.











End collisions.

(** ** Reading after a mutation *)

Section live.

Import reflect.

(** A store at a path of length one is a store into a field of the struct
    itself. *)
Lemma store_path_field (h : heap) (a : addr) (vs : list value) (i : nat) (x : value) :
  h !! a = Some (VStruct vs) -> i < length vs ->
  store_path h a [i] x = store_field h a i x.
Proof.
  intros Ha Hi. unfold store_path, store_field. rewrite Ha.
  destruct (lookup_lt_is_Some_2 vs i Hi) as [z Hz]. simpl. by rewrite Hz.
Qed.

(** The field that a key of the mapping resolves to is the last of those
    that contribute the key. *)
Lemma mapped_field_is_last (strct : iface) (tagName : list string)
  (fs : list (fieldDecl * rtype)) (k : string) (f : StructField) :
  (k, f) ∈ contributors (first_tag tagName) (TStruct fs) ->
  tagsToName (built_record strct tagName (TStruct fs)) !! k = Some (Name f) ->
  last_with_key k (contributors (first_tag tagName) (TStruct fs)) = Some (k, f).
Proof.
  intros Hf Hm.
  destruct (built_record_lookup_inv _ _ _ _ _ Hm) as (g & Hlast & Hg & Hn).
  apply contributors_visible in Hf as (Hf & _ & _).
  apply contributors_visible in Hg as (Hg & _ & _).
  pose proof (visible_fields_NoDup (TStruct fs)) as Hnd.
  apply list_elem_of_lookup in Hf as [i Hi]. apply list_elem_of_lookup in Hg as [j Hj].
  assert (i = j) as ->; [| congruence].
  eapply (NoDup_lookup _ i j (Name f) Hnd).
  - by rewrite list_lookup_fmap, Hi.
  - rewrite list_lookup_fmap, Hj. simpl. by rewrite Hn.
Qed.


End live.

(** ** The example structs *)

Section examples.

Import reflect.





Lemma GetKeys_declaration_order_witness :
  struct_after_deref (TPtr Person) = Some (TStruct Person_fields) ∧
  NewStructRecord (Some (TPtr Person, VPtr 0)) ["db"]
    = Ok (built_record (Some (TPtr Person, VPtr 0)) ["db"] Person, None) ∧
  GetKeys (built_record (Some (TPtr Person, VPtr 0)) ["db"] Person)
    = (contributors "db" Person).*1 ∧
  StronglySorted lex_lt (Index <$> (contributors "db" Person).*2).
Proof.
  assert (H1 : struct_after_deref (TPtr Person) = Some (TStruct Person_fields))
    by reflexivity.
  assert (H2 : NewStructRecord (Some (TPtr Person, VPtr 0)) ["db"]
                 = Ok (built_record (Some (TPtr Person, VPtr 0)) ["db"] Person, None))
    by (vm_compute; reflexivity).
  split; [exact H1 |]. split; [exact H2 |].
  destruct (GetKeys_declaration_order (TPtr Person) (VPtr 0) Person_fields ["db"] _ H1 H2)
    as (Hkeys & Hsorted & _).
  split; [exact Hkeys | exact Hsorted].
Defined.

Lemma GetVals_matches_GetKeys_witness :
  struct_after_deref Shadow = Some (TStruct Shadow_fields) ∧
  NewStructRecord (Some (Shadow, shadow)) []
    = Ok (built_record (Some (Shadow, shadow)) [] Shadow, None) ∧
  (forall k, k ∈ GetKeys (built_record (Some (Shadow, shadow)) [] Shadow) ->
     is_Some (key_value ∅ (Some (Shadow, shadow)) (first_tag []) Shadow_fields k)) ∧
  exists vals,
    GetVals ∅ (built_record (Some (Shadow, shadow)) [] Shadow) = Ok (Some vals) ∧
    length vals = length (GetKeys (built_record (Some (Shadow, shadow)) [] Shadow)).
Proof.
  assert (H1 : struct_after_deref Shadow = Some (TStruct Shadow_fields))
    by reflexivity.
  assert (H2 : NewStructRecord (Some (Shadow, shadow)) []
                 = Ok (built_record (Some (Shadow, shadow)) [] Shadow, None))
    by (vm_compute; reflexivity).
  assert (H3 : forall k, k ∈ GetKeys (built_record (Some (Shadow, shadow)) [] Shadow) ->
            is_Some (key_value ∅ (Some (Shadow, shadow)) (first_tag []) Shadow_fields k)).
  { intros k Hk.
    assert (Hkeys : GetKeys (built_record (Some (Shadow, shadow)) [] Shadow) = ["X"])
      by (vm_compute; reflexivity).
    rewrite Hkeys in Hk. apply list_elem_of_singleton in Hk as ->.
    exists (Some (TInt, VInt 3)). vm_compute. reflexivity. }
  split; [exact H1 |]. split; [exact H2 |]. split; [exact H3 |].
  destruct (GetVals_matches_GetKeys Shadow shadow Shadow_fields [] _ H1 H2 ∅)
    as [Hiff Hpoint].
  destruct (proj1 Hiff H3) as [vals Hvals].
  exists vals. split; [exact Hvals |]. exact (proj1 (Hpoint vals Hvals)).
Defined.

(** C5 as stated fails for an adapter built from a nil pointer to a struct:
    construction succeeds and there are two keys, but [GetVals] panics, in
    any heap. *)
Lemma GetVals_nil_pointer_panics :
  exists sr,
    NewStructRecord (Some (TPtr Person, VNil)) ["db"] = Ok (sr, None) ∧
    GetKeys sr = ["id"; "name"] ∧
    (forall h, panics (GetVals h sr)) ∧
    (forall h, ~ exists vals, GetVals h sr = Ok (Some vals) ∧
                              length vals = length (GetKeys sr)).
Proof.
  exists (built_record (Some (TPtr Person, VNil)) ["db"] Person).
  assert (Hpanic : forall h,
            GetVals h (built_record (Some (TPtr Person, VNil)) ["db"] Person)
            = Panic "reflect: call of reflect.Value.FieldByName on zero Value").
  { intros h. unfold GetVals.
    assert (Hkeys : tags (built_record (Some (TPtr Person, VNil)) ["db"] Person)
                    = ["id"; "name"]) by (by vm_compute).
    rewrite Hkeys. cbn [GetVals_loop]. unfold Get.
    assert (Hid : tagsToName (built_record (Some (TPtr Person, VNil)) ["db"] Person)
                    !! "id" = Some "ID") by (by vm_compute).
    rewrite Hid. reflexivity. }
  split_and!; [by vm_compute | by vm_compute | |].
  - intros h. rewrite Hpanic. by eexists.
  - intros h (vals & Hvals & _). by rewrite Hpanic in Hvals.
Qed.

Lemma excluded_tag_values_witness :
  struct_after_deref Row = Some (TStruct Row_fields) ∧
  NewStructRecord (Some (Row, row)) ["db"]
    = Ok (built_record (Some (Row, row)) ["db"] Row, None) ∧
  first_tag ["db"] ≠ "" ∧
  ("-" ∉ GetKeys (built_record (Some (Row, row)) ["db"] Row)) ∧
  tagsToName (built_record (Some (Row, row)) ["db"] Row) !! "" = None.
Proof.
  assert (H1 : struct_after_deref Row = Some (TStruct Row_fields)) by reflexivity.
  assert (H2 : NewStructRecord (Some (Row, row)) ["db"]
                 = Ok (built_record (Some (Row, row)) ["db"] Row, None))
    by (vm_compute; reflexivity).
  assert (H3 : first_tag ["db"] ≠ "") by discriminate.
  split; [exact H1 |]. split; [exact H2 |]. split; [exact H3 |].
  destruct (excluded_tag_values Row row Row_fields ["db"] _ H1 H2 H3)
    as (_ & Hdash & Hempty & _).
  split; [exact Hdash | exact Hempty].
Defined.

(** The adapter for [Row] under "db" keeps only [D]. *)
Example Row_keys :
  GetKeys (built_record (Some (Row, row)) ["db"] Row) = ["d"].
Proof. by vm_compute. Qed.

(** The scenarios of the specification on [Person]. *)
Example Person_keys_db :
  GetKeys (built_record (Some (Person, alice)) ["db"] Person) = ["id"; "name"].
Proof. by vm_compute. Qed.

Example Person_keys_no_tag :
  GetKeys (built_record (Some (Person, alice)) [] Person) = ["ID"; "Name"].
Proof. by vm_compute. Qed.

Example Person_get_secret :
  Get ∅ (built_record (Some (Person, alice)) ["db"] Person) "secret" = Ok (None, false).
Proof. by vm_compute. Qed.

Example not_a_struct :
  NewStructRecord (Some (TInt, VInt 42)) [] = Ok (zeroStructRecord, Some ErrNotAStruct) ∧
  NewStructRecord (Some (TString, VString "a string")) []
    = Ok (zeroStructRecord, Some ErrNotAStruct) ∧
  NewStructRecord (Some (TPtr (TPtr Person), VNil)) []
    = Ok (zeroStructRecord, Some ErrNotAStruct).
Proof. by vm_compute. Qed.

End examples.

(** ** Further behaviour of the adapter *)

Section behaviour.

Import reflect.

(** X1. [In] gives back what was passed to [NewStructRecord], the pointer
    or the value as it was given, and the adapter records the first tag name
    (the empty string when none is given). *)
Theorem In_returns_input (strct : iface) (names : list string) (sr : StructRecord) :
  NewStructRecord strct names = Ok (sr, None) ->
  In sr = strct ∧ tagName sr = first_tag names.
Proof.
  intros H. apply NewStructRecord_Ok_inv in H as (t & v & fs & -> & _ & ->). done.
Qed.

Lemma NewStructRecord_error_inv (strct : iface) (tagName : list string)
  (sr : StructRecord) (e : error) :
  NewStructRecord strct tagName = Ok (sr, Some e) ->
  sr = zeroStructRecord ∧ e = ErrNotAStruct ∧
  exists t v, strct = Some (t, v) ∧ struct_after_deref t = None.
Proof.
  intros H. destruct strct as [[t v]|]; [| done].
  destruct (struct_after_deref t) as [st|] eqn:Hst.
  - by rewrite (NewStructRecord_accepts _ _ _ _ Hst) in H.
  - rewrite (NewStructRecord_rejects _ _ _ Hst) in H. simplify_eq.
    split_and!; [done | done |]. by exists t, v.
Qed.

(** X2. When [NewStructRecord] returns an error, the error is
    [ErrNotAStruct] and the adapter returned with it is the empty one: [In]
    is nil, there are no keys, [GetVals] is the empty slice and [Get] finds
    nothing, without a panic. *)
Theorem refused_adapter_is_empty (strct : iface) (tagName : list string)
  (sr : StructRecord) (e : error) :
  NewStructRecord strct tagName = Ok (sr, Some e) ->
  e = ErrNotAStruct ∧ In sr = None ∧ GetKeys sr = [] ∧
  forall h, GetVals h sr = Ok (Some []) ∧ forall k, Get h sr k = Ok (None, false).
Proof.
  intros (-> & -> & _)%NewStructRecord_error_inv. split_and!; try done.
Qed.

(** [Get] tells a key that is not exposed from one that is. *)
Lemma Get_found_inv (h : heap) (sr : StructRecord) (k : string) (i : iface) (b : bool) :
  Get h sr k = Ok (i, b) ->
  if b then is_Some (tagsToName sr !! k) else tagsToName sr !! k = None ∧ i = None.
Proof.
  unfold Get. destruct (tagsToName sr !! k) as [name|] eqn:Hk.
  - destruct (Indirect h (ValueOf (record sr))) as [v0|]; simpl; [| done].
    destruct (Value_FieldByName h v0 name) as [f0|]; simpl; [| done].
    destruct (Value_Interface f0); simpl; [| done].
    intros [= <- <-]. by eexists.
  - by intros [= <- <-].
Qed.

Lemma built_keys_dom (strct : iface) (tagName : list string) (st : rtype) (k : string) :
  k ∈ tags (built_record strct tagName st) <->
  is_Some (tagsToName (built_record strct tagName st) !! k).
Proof.
  split.
  - intros Hk. destruct (built_record_lookup _ _ _ _ Hk) as (f & _ & _ & ->). by eexists.
  - intros [name Hname].
    destruct (built_record_lookup_inv _ _ _ _ _ Hname) as (f & _ & Hf & _).
    simpl. apply list_elem_of_fmap. by exists (k, f).
Qed.

(** X3. For whatever [NewStructRecord] returns, the keys of the mapping are
    the keys that [GetKeys] lists. So [Get] on a string that is not a key
    returns nil and false, in any heap and without touching the wrapped
    value; [Get] returns false only for such a string, then with nil; and it
    returns true only for a key. *)
Theorem Get_unknown_key (strct : iface) (tagName : list string)
  (sr : StructRecord) (e : option error) (k : string) :
  NewStructRecord strct tagName = Ok (sr, e) ->
  (k ∈ GetKeys sr <-> is_Some (tagsToName sr !! k)) ∧
  (k ∉ GetKeys sr -> forall h, Get h sr k = Ok (None, false)) ∧
  (forall h i, Get h sr k = Ok (i, false) -> (k ∉ GetKeys sr) ∧ i = None) ∧
  (forall h i, Get h sr k = Ok (i, true) -> k ∈ GetKeys sr).
Proof.
  intros H.
  assert (Hdom : k ∈ GetKeys sr <-> is_Some (tagsToName sr !! k)).
  { destruct e as [e|].
    - apply NewStructRecord_error_inv in H as (-> & _). simpl.
      rewrite lookup_empty. split; [by intros ?%elem_of_nil | by intros [? ?]].
    - apply NewStructRecord_Ok_inv in H as (t & v & fs & -> & _ & ->).
      apply built_keys_dom. }
  split_and!; [done | | |].
  - intros Hk h. unfold Get.
    destruct (tagsToName sr !! k) eqn:E; [| done].
    exfalso. apply Hk, Hdom. by eexists.
  - intros h i Hget. apply Get_found_inv in Hget as [Hnone ->].
    split; [| done]. rewrite Hdom, Hnone. by intros [? ?].
  - intros h i Hget. apply Get_found_inv in Hget. by apply Hdom.
Qed.


(** The loop of [GetVals] stops with the nil slice at the first key that is
    not in the mapping, when [Get] found the keys before it. *)
Lemma GetVals_loop_None_iff (h : heap) (sr : StructRecord) (keys : list string)
  (vals : list iface) :
  GetVals_loop h sr keys vals = Ok None <->
  exists pre k post,
    keys = pre ++ k :: post ∧ tagsToName sr !! k = None ∧
    Forall (fun k' => exists val, Get h sr k' = Ok (val, true)) pre.
Proof.
  revert vals. induction keys as [|k keys IH]; intros vals; simpl.
  - split; [done |]. intros (pre & k & post & Heq & _). by destruct pre.
  - destruct (Get h sr k) as [[val [|]]|msg] eqn:Hget; simpl.
    + rewrite IH. split.
      * intros (pre & k' & post & -> & Hk' & Hpre).
        exists (k :: pre), k', post. split_and!; [done | done |].
        constructor; [by exists val | done].
      * intros (pre & k' & post & Heq & Hk' & Hpre).
        destruct pre as [|k0 pre]; simpl in Heq; simplify_eq.
        -- apply Get_found_inv in Hget as [name Hname]. congruence.
        -- apply Forall_cons in Hpre as [_ Hpre]. by exists pre, k', post.
    + apply Get_found_inv in Hget as [Hnone _]. split; [| done].
      intros _. exists [], k, keys. split_and!; [done | done | constructor].
    + split; [done |].
      intros (pre & k' & post & Heq & Hk' & Hpre).
      destruct pre as [|k0 pre]; simpl in Heq; simplify_eq.
      * unfold Get in Hget. by rewrite Hk' in Hget.
      * apply Forall_cons in Hpre as [[val Hval] _]. congruence.
Qed.

(** X4. What [GetVals] returns, for any [StructRecord], built by
    [NewStructRecord] or not: a slice exactly when [Get] finds every key,
    holding what [Get] returns key by key, so as long as the keys; the nil
    slice exactly when some key is missing from the mapping and [Get] found
    the keys before it. *)
Theorem GetVals_outcomes (h : heap) (sr : StructRecord) :
  (forall vals, GetVals h sr = Ok (Some vals) <->
     Forall2 (fun k val => Get h sr k = Ok (val, true)) (GetKeys sr) vals) ∧
  (GetVals h sr = Ok None <->
     exists pre k post,
       GetKeys sr = pre ++ k :: post ∧ tagsToName sr !! k = None ∧
       Forall (fun k' => exists val, Get h sr k' = Ok (val, true)) pre) ∧
  (forall vals, GetVals h sr = Ok (Some vals) -> length vals = length (GetKeys sr)).
Proof.
  assert (Hsome : forall vals, GetVals h sr = Ok (Some vals) <->
            Forall2 (fun k val => Get h sr k = Ok (val, true)) (GetKeys sr) vals).
  { intros vals. unfold GetVals. rewrite GetVals_loop_Some. split.
    - by intros (vs & -> & Hvs).
    - intros Hvs. by exists vals. }
  split_and!; [done | apply GetVals_loop_None_iff |].
  intros vals Hvals%Hsome. symmetry. by eapply Forall2_length.
Qed.

(** X5. The keys and the mapping depend on the struct type and on the
    first tag name only: not on the value, not on whether the struct or a
    pointer to it is passed, not on further tag names. *)
Theorem keys_depend_on_type_and_tag (fs : list (fieldDecl * rtype)) (v v' : value)
  (t0 : string) (more : list string) :
  exists sr sr',
    NewStructRecord (Some (TStruct fs, v)) [t0] = Ok (sr, None) ∧
    NewStructRecord (Some (TPtr (TStruct fs), v')) (t0 :: more) = Ok (sr', None) ∧
    GetKeys sr = GetKeys sr' ∧ tagsToName sr = tagsToName sr' ∧
    tagName sr = t0 ∧ tagName sr' = t0.
Proof.
  exists (built_record (Some (TStruct fs, v)) [t0] (TStruct fs)),
         (built_record (Some (TPtr (TStruct fs), v')) (t0 :: more) (TStruct fs)).
  split_and!; try done; by apply NewStructRecord_accepts.
Qed.

(** X6. [extract] always returns: it adds at most one key, binds it to the
    field's name and leaves the other keys of the mapping as they were; with
    no tag namespace the key is the field's name. *)
Theorem extract_adds_at_most_one (f : StructField) (tag : string)
  (m : gmap string string) :
  exists ts m',
    extract f tag m = Ok (ts, m') ∧
    length ts <= 1 ∧
    (forall k, k ∈ ts -> m' !! k = Some (Name f)) ∧
    (forall k, k ∉ ts -> m' !! k = m !! k) ∧
    (tag = "" -> ts = [Name f]).
Proof.
  rewrite extract_spec. destruct (exposed_key tag f) as [k0|] eqn:Hk.
  - exists [k0], (<[k0 := Name f]> m). split_and!; [done | simpl; lia | | |].
    + intros k ->%list_elem_of_singleton. apply lookup_insert_eq.
    + intros k Hk0. apply lookup_insert_ne. intros ->. apply Hk0, list_elem_of_here.
    + intros ->. unfold exposed_key in Hk. rewrite decide_True in Hk by done. congruence.
  - exists [], m. split_and!; [done | simpl; lia | by intros k ?%elem_of_nil | done |].
    intros ->. unfold exposed_key in Hk. by rewrite decide_True in Hk.
Qed.

(** X7. Under a tag namespace, a tag value without a comma, other than the
    empty string and "-", is the key as it is. *)
Theorem extract_whole_tag_value (f : StructField) (tag : string)
  (m : gmap string string) :
  tag ≠ "" ->
  contains_byte "," (StructTag_Get (Tag f) tag) = false ->
  StructTag_Get (Tag f) tag ≠ "" -> StructTag_Get (Tag f) tag ≠ "-" ->
  extract f tag m =
    Ok ([StructTag_Get (Tag f) tag], <[StructTag_Get (Tag f) tag := Name f]> m).
Proof.
  intros Htag Hcomma Hne Hdash. rewrite extract_spec. unfold exposed_key.
  rewrite decide_False by done. rewrite before_no_sep by done.
  rewrite decide_False by (by intros [|]). done.
Qed.


(** *** What [Get] returns for a key *)

(** In [Get] of a built adapter, whenever [FieldByName] returns for a name
    of the mapping, it returns the field of a contributing field, read at its
    index path, with neither read-only flag set. *)
Lemma Get_field_flags (h : heap) (t : rtype) (x0 : value) (tagName : list string)
  (fs : list (fieldDecl * rtype)) (k name : string) (v fv : Value) :
  struct_after_deref t = Some (TStruct fs) ->
  tagsToName (built_record (Some (t, x0)) tagName (TStruct fs)) !! k = Some name ->
  Indirect h (ValueOf (Some (t, x0))) = Ok v ->
  Value_FieldByName h v name = Ok fv ->
  exists f y x,
    (k, f) ∈ contributors (first_tag tagName) (TStruct fs) ∧ Name f = name ∧
    wrapped_struct h (Some (t, x0)) = Some y ∧
    read_path h fs y (Index f) = Some x ∧
    fv = Some (mkValue (Typ f) x false false).
Proof.
  intros Hst Hk Hind Hfv.
  destruct (built_record_lookup_inv _ _ _ _ _ Hk) as (f & _ & Hf & ->).
  destruct (wrapped_struct h (Some (t, x0))) as [y|] eqn:Hw.
  - rewrite (Indirect_wrapped_Some _ _ _ _ _ Hst Hw) in Hind. injection Hind as <-.
    destruct (contributor_declared fs tagName k f Hf)
      as (d & ft & Hat & Hfd & Hexp & Hemb & _).
    pose proof (contributors_visible _ _ _ _ Hf) as (Hvis & _ & _).
    cbn [Value_FieldByName] in Hfv. unfold Type_FieldByName in Hfv.
    assert (Hvf : VisibleFields (TStruct fs) = Ok (visible_fields (TStruct fs))) by done.
    rewrite Hvf in Hfv. cbn [mbind result_bind] in Hfv.
    rewrite (find_by_name _ _ (visible_fields_NoDup _) Hvis) in Hfv.
    apply (Value_FieldByIndex_read _ _ _ _ _ _ _ Hat) in Hfv as (x & Hx & ->).
    assert (Htyp : Typ f = ft) by (by rewrite Hfd).
    exists f, y, x. split_and!; [done..|].
    unfold field_value, decl_exported. rewrite Hexp, Hemb, Htyp.
    by rewrite bool_decide_true.
  - by rewrite (Indirect_wrapped_None _ _ _ _ _ Hst Hw Hind) in Hfv.
Qed.

(** X8. In [Get] of an adapter built by [NewStructRecord], the call of
    [Interface] never refuses the field for being read-only: whenever
    [FieldByName] returns for a name of the mapping, the field it returns is
    the one of a contributing field, reached through exported or embedded
    fields only, with neither read-only flag set. [Get] then returns, with
    [found = true]: for a field that is not of interface type the value with
    the declared type of the field; for a field of interface type what the
    interface holds, which is nil for a nil interface. *)
Theorem Get_Interface_accepts (strct : iface) (tagName : list string)
  (sr : StructRecord) (h : heap) (k name : string) (v fv : Value) :
  NewStructRecord strct tagName = Ok (sr, None) ->
  tagsToName sr !! k = Some name ->
  Indirect h (ValueOf (In sr)) = Ok v ->
  Value_FieldByName h v name = Ok fv ->
  exists t x0 fs f x,
    strct = Some (t, x0) ∧ struct_after_deref t = Some (TStruct fs) ∧
    (k, f) ∈ contributors (first_tag tagName) (TStruct fs) ∧ Name f = name ∧
    fv = Some (mkValue (Typ f) x false false) ∧
    (Type_Kind (Typ f) ≠ Interface ->
     Value_Interface fv = Ok (Some (Typ f, x)) ∧
     Get h sr k = Ok (Some (Typ f, x), true)) ∧
    (forall c, Type_Kind (Typ f) = Interface -> x = VIface c ->
     Value_Interface fv = Ok c ∧ Get h sr k = Ok (c, true)).
Proof.
  intros H Hk Hind Hfv.
  apply NewStructRecord_Ok_inv in H as (t & x0 & fs & -> & Hst & ->).
  change (In _) with (Some (t, x0)) in Hind.
  destruct (Get_field_flags h t x0 tagName fs k name v fv Hst Hk Hind Hfv)
    as (f & y & x & Hf & Hn & _ & _ & ->).
  assert (Hget : Get h (built_record (Some (t, x0)) tagName (TStruct fs)) k
            = (i ← Value_Interface (Some (mkValue (Typ f) x false false)); Ok (i, true))).
  { unfold Get. rewrite Hk.
    change (record _) with (Some (t, x0)).
    rewrite Hind. cbn [mbind result_bind]. by rewrite Hfv. }
  exists t, x0, fs, f, x. split_and!; [done..| |].
  - intros Hkind.
    assert (Hint : Value_Interface (Some (mkValue (Typ f) x false false))
              = Ok (Some (Typ f, x))).
    { unfold Value_Interface. cbn [flagStickyRO flagEmbedRO vtyp vdata orb].
      by rewrite decide_False. }
    split; [done |]. by rewrite Hget, Hint.
  - intros c Hkind ->.
    assert (Hint : Value_Interface (Some (mkValue (Typ f) (VIface c) false false))
              = Ok c).
    { unfold Value_Interface. cbn [flagStickyRO flagEmbedRO vtyp vdata orb].
      by rewrite decide_True. }
    split; [done |]. by rewrite Hget, Hint.
Qed.

(** [Get] panics on a key whose field cannot be reached. *)
Lemma Get_unreachable_panics (h : heap) (t : rtype) (v : value)
  (tagName : list string) (fs : list (fieldDecl * rtype)) (k : string) :
  struct_after_deref t = Some (TStruct fs) ->
  k ∈ tags (built_record (Some (t, v)) tagName (TStruct fs)) ->
  key_value h (Some (t, v)) (first_tag tagName) fs k = None ->
  panics (Get h (built_record (Some (t, v)) tagName (TStruct fs)) k).
Proof.
  intros Hst Hk Hnone.
  destruct (Get h (built_record (Some (t, v)) tagName (TStruct fs)) k)
    as [[i [|]]|msg] eqn:Hget; [| | by eexists].
  - apply (Get_key_value h t v tagName fs k i Hst) in Hget. congruence.
  - apply Get_found_inv in Hget as [Hm _].
    apply built_keys_dom in Hk as [name Hname]. congruence.
Qed.

(** Every key of an adapter that [NewStructRecord] built is in its
    mapping. *)
Lemma built_keys_mapped (strct : iface) (tagName : list string) (sr : StructRecord)
  (k : string) :
  NewStructRecord strct tagName = Ok (sr, None) ->
  k ∈ GetKeys sr -> is_Some (tagsToName sr !! k).
Proof.
  intros H Hk. apply NewStructRecord_Ok_inv in H as (t & v & fs & -> & _ & ->).
  by apply built_keys_dom.
Qed.

(** When [Get] panics on one of the keys, [GetVals] of a built adapter
    panics. *)
Lemma GetVals_panics (strct : iface) (tagName : list string) (sr : StructRecord)
  (h : heap) (k : string) :
  NewStructRecord strct tagName = Ok (sr, None) ->
  k ∈ GetKeys sr -> panics (Get h sr k) -> panics (GetVals h sr).
Proof.
  intros H Hk [msg Hget].
  destruct (GetVals h sr) as [[vals|]|msg'] eqn:Hvals; [| | by eexists].
  - apply GetVals_loop_Some in Hvals as (vs & _ & Hvs).
    apply list_elem_of_lookup in Hk as [i Hi].
    destruct (Forall2_lookup_l _ _ _ _ _ Hvs Hi) as (val & _ & Hval). congruence.
  - apply GetVals_loop_None in Hvals as (k' & Hk' & Hnone).
    destruct (built_keys_mapped _ _ _ _ H Hk') as [name Hname]. congruence.
Qed.

(** X9. [NewStructRecord] accepts a nil pointer to a struct and gives it the
    keys of the struct type; on such an adapter [Get] panics for every key,
    and still answers nil and false for any other string; [GetVals] panics
    unless there are no keys. *)
Theorem nil_pointer_adapter (fs : list (fieldDecl * rtype)) (tagName : list string) :
  exists sr,
    NewStructRecord (Some (TPtr (TStruct fs), VNil)) tagName = Ok (sr, None) ∧
    GetKeys sr = (contributors (first_tag tagName) (TStruct fs)).*1 ∧
    forall h,
      (forall k, k ∈ GetKeys sr -> panics (Get h sr k)) ∧
      (forall k, k ∉ GetKeys sr -> Get h sr k = Ok (None, false)) ∧
      (GetKeys sr ≠ [] -> panics (GetVals h sr)) ∧
      (GetKeys sr = [] -> GetVals h sr = Ok (Some [])).
Proof.
  set (sr := built_record (Some (TPtr (TStruct fs), VNil)) tagName (TStruct fs)).
  assert (Hsr : NewStructRecord (Some (TPtr (TStruct fs), VNil)) tagName = Ok (sr, None))
    by (by apply NewStructRecord_accepts).
  assert (Hpanic : forall h k, k ∈ GetKeys sr -> panics (Get h sr k)).
  { intros h k Hk. destruct (built_keys_mapped _ _ _ _ Hsr Hk) as [name Hname].
    unfold Get. rewrite Hname. by eexists. }
  exists sr. split_and!; [done | done |]. intros h. split_and!.
  - apply Hpanic.
  - intros k Hk. unfold Get.
    destruct (tagsToName sr !! k) as [name|] eqn:Hname; [| done].
    exfalso. apply Hk. apply built_keys_dom. by eexists.
  - intros Hne.
    assert (exists k, k ∈ GetKeys sr) as [k Hk].
    { destruct (GetKeys sr) as [|k ks]; [done |]. exists k. apply list_elem_of_here. }
    apply (GetVals_panics _ _ _ h k Hsr Hk), Hpanic, Hk.
  - intros Hnil. unfold GetVals. change (tags sr) with (GetKeys sr). by rewrite Hnil.
Qed.

(** X10. [Get] panics on a key whose field is promoted through an embedded
    pointer that is nil, wherever on the field's index path that pointer is,
    and so does [GetVals]. *)
Theorem Get_nil_embedded_pointer (h : heap) (t : rtype) (v y : value)
  (fs : list (fieldDecl * rtype)) (tagName : list string)
  (sr : StructRecord) (k : string) (f : StructField) :
  struct_after_deref t = Some (TStruct fs) ->
  NewStructRecord (Some (t, v)) tagName = Ok (sr, None) ->
  wrapped_struct h (Some (t, v)) = Some y ->
  (k, f) ∈ contributors (first_tag tagName) (TStruct fs) ->
  tagsToName sr !! k = Some (Name f) ->
  nil_on_path h fs y (Index f) = true ->
  panics (Get h sr k) ∧ panics (GetVals h sr).
Proof.
  intros Hst Hsr Hw Hf Hmap Hnil.
  assert (Hk : k ∈ GetKeys sr).
  { rewrite (NewStructRecord_accepts _ _ _ _ Hst) in Hsr. simplify_eq.
    apply list_elem_of_fmap. by exists (k, f). }
  assert (Hget : panics (Get h sr k)).
  { pose proof Hsr as Hsr'.
    rewrite (NewStructRecord_accepts _ _ _ _ Hst) in Hsr'. simplify_eq.
    apply Get_unreachable_panics; [done | done |].
    unfold key_value. rewrite (mapped_field_is_last _ _ _ _ _ Hf Hmap).
    cbn [mbind option_bind snd]. rewrite Hw. cbn [mbind option_bind].
    by rewrite (nil_on_path_read _ _ _ _ Hnil). }
  split; [done |]. by apply (GetVals_panics _ _ _ h k Hsr).
Qed.

Lemma untagged_contributions (l : list StructField) :
  (omap (fun f => k ← exposed_key "" f; Some (k, f)) l).*1 = Name <$> l.
Proof.
  induction l as [|f l IH]; [done |].
  change ((omap (fun f => k ← exposed_key "" f; Some (k, f)) (f :: l)).*1)
    with (Name f :: (omap (fun f => k ← exposed_key "" f; Some (k, f)) l).*1).
  by rewrite IH.
Qed.

(** X11. With no tag name the keys are the names of the visible fields that
    are exported and not embedded: they are distinct, and the mapping sends
    each key to itself. *)
Theorem untagged_keys_are_field_names (t : rtype) (v : value)
  (fs : list (fieldDecl * rtype)) (tagName : list string) (sr : StructRecord) :
  struct_after_deref t = Some (TStruct fs) ->
  NewStructRecord (Some (t, v)) tagName = Ok (sr, None) ->
  first_tag tagName = "" ->
  GetKeys sr = Name <$> filter (fun f => included f) (visible_fields (TStruct fs)) ∧
  NoDup (GetKeys sr) ∧
  (forall k, k ∈ GetKeys sr -> tagsToName sr !! k = Some k) ∧
  (forall k name, tagsToName sr !! k = Some name -> name = k).
Proof.
  intros Hst Hsr Htag.
  rewrite (NewStructRecord_accepts _ _ _ _ Hst) in Hsr. simplify_eq.
  assert (Hkeys : GetKeys (built_record (Some (t, v)) tagName (TStruct fs))
            = Name <$> filter (fun f => included f) (visible_fields (TStruct fs))).
  { simpl. rewrite Htag. unfold contributors, contributions.
    apply untagged_contributions. }
  assert (Hname : forall k f, (k, f) ∈ contributors (first_tag tagName) (TStruct fs) ->
            Name f = k).
  { intros k f (_ & _ & Hk)%contributors_visible. rewrite Htag in Hk.
    unfold exposed_key in Hk. rewrite decide_True in Hk by done. congruence. }
  split_and!.
  - done.
  - rewrite Hkeys. eapply sublist_NoDup; [apply (visible_fields_NoDup (TStruct fs)) |].
    apply fmap_sublist. apply (sublist_filter (fun f => included f)).
  - intros k Hk.
    destruct (built_record_lookup (Some (t, v)) tagName (TStruct fs) k Hk)
      as (f & _ & Hf & ->).
    by rewrite (Hname _ _ Hf).
  - intros k name Hk.
    destruct (built_record_lookup_inv _ _ _ _ _ Hk) as (f & _ & Hf & ->).
    by apply Hname.
Qed.


(** X12. A declared field whose name is also the name of another declared
    field at the same depth or less is not visible: no contributing field
    sits at its index path. With no tag name, when no field of that name is
    declared at a lesser depth, the name is not a key at all and [Get] does
    not find it. *)
Theorem shadowed_field_gives_no_key (fs : list (fieldDecl * rtype))
  (tagName : list string) (index index' : list nat) (d d' : fieldDecl)
  (ft ft' : rtype) :
  decl_at fs index = Some (d, ft) ->
  decl_at fs index' = Some (d', ft') ->
  dName d' = dName d -> index' ≠ index -> length index' <= length index ->
  (forall k f, (k, f) ∈ contributors (first_tag tagName) (TStruct fs) ->
     Index f ≠ index) ∧
  (first_tag tagName = "" ->
   (forall index'' d'' ft'', decl_at fs index'' = Some (d'', ft'') ->
      dName d'' = dName d -> length index <= length index'') ->
   forall t v sr,
     struct_after_deref t = Some (TStruct fs) ->
     NewStructRecord (Some (t, v)) tagName = Ok (sr, None) ->
     (dName d ∉ GetKeys sr) ∧ forall h, Get h sr (dName d) = Ok (None, false)).
Proof.
  intros Hat Hat' Hname Hne Hlen.
  pose proof (decl_at_all_fields _ _ [] _ _ Hat) as HfA.
  pose proof (decl_at_all_fields _ _ [] _ _ Hat') as HfA'.
  simpl in HfA, HfA'.
  assert (Hvis : forall f, f ∈ visible_fields (TStruct fs) -> Index f ≠ index).
  { intros f Hf Hidx.
    destruct (visible_fields_declared fs f Hf) as (d0 & ft0 & Hat0 & Hfd).
    apply visible_fields_selector in Hf as (_ & _ & Hstrict).
    rewrite Hidx in Hat0. assert (d0 = d) as -> by congruence.
    specialize (Hstrict _ HfA'). rewrite Hfd, Hidx in Hstrict. simpl in Hstrict.
    specialize (Hstrict Hname Hne). lia. }
  split.
  { intros k f (Hf & _ & _)%contributors_visible. by apply Hvis. }
  intros Htag Hmin t v sr Hst Hsr.
  rewrite (NewStructRecord_accepts _ _ _ _ Hst) in Hsr. simplify_eq.
  assert (Hnot : dName d ∉ GetKeys (built_record (Some (t, v)) tagName (TStruct fs))).
  { intros Hk.
    destruct (built_record_lookup (Some (t, v)) tagName (TStruct fs) (dName d) Hk)
      as (g & _ & Hg & _).
    apply contributors_visible in Hg as (Hg & _ & Hkey).
    rewrite Htag in Hkey. unfold exposed_key in Hkey.
    rewrite decide_True in Hkey by done. injection Hkey as Hgn.
    pose proof (Hvis _ Hg) as Hgi.
    destruct (visible_fields_declared fs g Hg) as (dg & ftg & Hatg & Hgd).
    apply visible_fields_selector in Hg as (_ & _ & Hstrict).
    specialize (Hstrict _ HfA). simpl in Hstrict.
    specialize (Hstrict (eq_sym Hgn) (fun H => Hgi (eq_sym H))).
    assert (Hdg : dName dg = dName d) by (by rewrite Hgd in Hgn).
    specialize (Hmin _ _ _ Hatg Hdg). lia. }
  split; [done |]. intros h. unfold Get.
  destruct (tagsToName _ !! dName d) as [name|] eqn:Hm; [| done].
  exfalso. apply Hnot. apply built_keys_dom. by eexists.
Qed.

Lemma NoDup_fst_functional {A B} (l : list (A * B)) (k : A) (a b : B) :
  NoDup l.*1 -> (k, a) ∈ l -> (k, b) ∈ l -> a = b.
Proof.
  intros Hnd [i Hi]%list_elem_of_lookup [j Hj]%list_elem_of_lookup.
  assert (i = j) as ->; [| congruence].
  eapply (NoDup_lookup _ i j k Hnd); by rewrite list_lookup_fmap, ?Hi, ?Hj.
Qed.

Lemma declared_from_lookup (fs : list (fieldDecl * rtype)) (i j : nat)
  (d : fieldDecl) (ft : rtype) :
  fs !! j = Some (d, ft) ->
  declared_from i fs !! j = Some (field_of_decl d ft [i + j]).
Proof.
  revert i j. induction fs as [|[d0 ft0] fs IH]; intros i [|j] Hj; simplify_eq/=.
  - by rewrite Nat.add_0_r.
  - rewrite (IH (S i) j Hj). do 3 f_equal. lia.
Qed.

(** X13. For a struct that embeds nothing, whose keys are distinct,
    [GetVals] returns what [Interface] gives for the values that the struct
    holds in its contributing fields, in declaration order: for a field that
    is not of interface type the value with the declared type of the field,
    for a field of interface type what the interface holds. *)
Theorem GetVals_plain_struct (h : heap) (t : rtype) (v : value)
  (fs : list (fieldDecl * rtype)) (vs : list value) (tagName : list string)
  (sr : StructRecord) (vals : list iface) :
  struct_after_deref t = Some (TStruct fs) ->
  NewStructRecord (Some (t, v)) tagName = Ok (sr, None) ->
  plain_struct fs ->
  NoDup (GetKeys sr) ->
  wrapped_struct h (Some (t, v)) = Some (VStruct vs) ->
  contributing_values (first_tag tagName) 0 fs vs = Some vals ->
  GetVals h sr = Ok (Some vals).
Proof.
  intros Hst Hsr Hplain Hnd Hw Hvals.
  rewrite (NewStructRecord_accepts _ _ _ _ Hst) in Hsr. simplify_eq.
  set (tag := first_tag tagName) in *.
  set (sr := built_record (Some (t, v)) tagName (TStruct fs)) in *.
  assert (Hkeys : tags sr = (contributions tag (declared_fields fs)).*1).
  { simpl. unfold contributors. by rewrite (visible_fields_plain _ Hplain). }
  assert (Hget : forall i d ft x k val,
            fs !! i = Some (d, ft) -> vs !! i = Some x ->
            included (field_of_decl d ft [i]) = true ->
            exposed_key tag (field_of_decl d ft [i]) = Some k ->
            interface_of ft x = Some val ->
            Get h sr k = Ok (val, true)).
  { intros i d ft x k val Hi Hx Hinc Hkey Hval.
    assert (Hf : (k, field_of_decl d ft [i]) ∈ contributors tag (TStruct fs)).
    { apply contributors_iff. split_and!; [| done | done].
      rewrite (visible_fields_plain _ Hplain).
      eapply list_elem_of_lookup_2. by apply (declared_from_lookup fs 0 i). }
    assert (Hk : k ∈ tags sr) by (apply list_elem_of_fmap; by eexists (k, _)).
    destruct (built_record_lookup (Some (t, v)) tagName (TStruct fs) k Hk)
      as (g & Hlast & Hg & _).
    rewrite (NoDup_fst_functional _ _ _ _ Hnd Hg Hf) in Hlast.
    apply (Get_key_value h t v tagName fs k val Hst).
    unfold key_value. rewrite Hlast. cbn [mbind option_bind snd].
    rewrite Hw. cbn [mbind option_bind field_of_decl Index Typ read_path].
    by rewrite Hi, Hx. }
  assert (Hall : forall suf vsuf i res,
            (forall j p, suf !! j = Some p -> fs !! (i + j) = Some p) ->
            (forall j x, vsuf !! j = Some x -> vs !! (i + j) = Some x) ->
            contributing_values tag i suf vsuf = Some res ->
            Forall2 (fun k val => Get h sr k = Ok (val, true))
              (contributions tag (declared_from i suf)).*1 res).
  { induction suf as [|[d ft] suf IH]; intros vsuf i res Hfs Hvs Hres.
    { injection Hres as <-. constructor. }
    destruct vsuf as [|x vsuf]; [done |].
    cbn [contributing_values] in Hres.
    destruct (contributing_values tag (S i) suf vsuf) as [rest|] eqn:Hrest; [| done].
    cbn [mbind option_bind] in Hres.
    assert (Htail : Forall2 (fun k val => Get h sr k = Ok (val, true))
              (contributions tag (declared_from (S i) suf)).*1 rest).
    { apply (IH vsuf (S i) rest); [| | done].
      - intros j p Hj. replace (S i + j) with (i + S j) by lia. by apply Hfs.
      - intros j y Hj. replace (S i + j) with (i + S j) by lia. by apply Hvs. }
    cbn [declared_from]. rewrite contributions_cons.
    destruct (included (field_of_decl d ft [i])) eqn:Hinc; [| by injection Hres as <-].
    destruct (exposed_key tag (field_of_decl d ft [i])) as [k|] eqn:Hkey;
      [| by injection Hres as <-].
    destruct (interface_of ft x) as [val|] eqn:Hval; [| done].
    cbn [mbind option_bind] in Hres. injection Hres as <-.
    rewrite fmap_cons. constructor; [| done].
    apply (Hget i d ft x k val); [| | done..].
    - rewrite <- (Nat.add_0_r i). by apply Hfs.
    - rewrite <- (Nat.add_0_r i). by apply Hvs. }
  unfold GetVals. apply GetVals_loop_Some.
  exists vals. split; [done |].
  rewrite Hkeys. by apply (Hall fs vs 0).
Qed.

Lemma GetVals_loop_ext (h : heap) (sr sr' : StructRecord) (keys : list string)
  (vals : list iface) :
  (forall k, Get h sr k = Get h sr' k) ->
  GetVals_loop h sr keys vals = GetVals_loop h sr' keys vals.
Proof.
  intros Hget. revert vals. induction keys as [|k keys IH]; intros vals; [done |].
  simpl. rewrite Hget. destruct (Get h sr' k) as [[val [|]]|msg]; simpl; [| done..].
  apply IH.
Qed.

(** X14. While the struct is as the pointer finds it, an adapter built from
    a pointer to a struct and one built from the struct value answer alike:
    [Get] for every string, and [GetVals]. *)
Theorem pointer_and_value_agree (h : heap) (a : addr) (x : value)
  (fs : list (fieldDecl * rtype)) (tagName : list string)
  (srp srv : StructRecord) :
  NewStructRecord (Some (TPtr (TStruct fs), VPtr a)) tagName = Ok (srp, None) ->
  NewStructRecord (Some (TStruct fs, x)) tagName = Ok (srv, None) ->
  h !! a = Some x ->
  GetKeys srp = GetKeys srv ∧
  (forall k, Get h srp k = Get h srv k) ∧
  GetVals h srp = GetVals h srv.
Proof.
  intros Hp Hv Ha.
  rewrite (NewStructRecord_accepts _ (TStruct fs)) in Hp by done.
  rewrite (NewStructRecord_accepts _ (TStruct fs)) in Hv by done.
  simplify_eq.
  assert (Hget : forall k,
            Get h (built_record (Some (TPtr (TStruct fs), VPtr a)) tagName (TStruct fs)) k
            = Get h (built_record (Some (TStruct fs, x)) tagName (TStruct fs)) k).
  { intros k. unfold Get. simpl.
    destruct (insert_all _ _ !! k) as [name|]; [| done].
    unfold Indirect. simpl. by rewrite Ha. }
  split_and!; [done | done |].
  unfold GetVals. simpl. by apply GetVals_loop_ext.
Qed.

Lemma before_no_byte (sep : ascii) (s : string) :
  contains_byte sep (before sep s) = false.
Proof.
  induction s as [|c s IH]; [done |].
  simpl. destruct (decide (c = sep)) as [Hc|Hc]; [done |].
  simpl. by rewrite decide_False.
Qed.

(** X15. Under a tag namespace no key holds a comma: every key is the tag
    value of a visible field that is exported and not embedded, cut at its
    first comma, and the mapping binds it to the name of such a field. *)
Theorem tagged_keys_have_no_comma (t : rtype) (v : value)
  (fs : list (fieldDecl * rtype)) (tagName : list string) (sr : StructRecord)
  (k : string) :
  struct_after_deref t = Some (TStruct fs) ->
  NewStructRecord (Some (t, v)) tagName = Ok (sr, None) ->
  first_tag tagName ≠ "" ->
  k ∈ GetKeys sr ->
  contains_byte "," k = false ∧
  exists f,
    f ∈ visible_fields (TStruct fs) ∧ IsExported f = true ∧ Anonymous f = false ∧
    k = before "," (StructTag_Get (Tag f) (first_tag tagName)) ∧
    tagsToName sr !! k = Some (Name f).
Proof.
  intros Hst Hsr Htag Hk.
  rewrite (NewStructRecord_accepts _ _ _ _ Hst) in Hsr. simplify_eq.
  destruct (built_record_lookup (Some (t, v)) tagName (TStruct fs) k Hk)
    as (f & _ & Hf & Hm).
  apply contributors_visible in Hf as (Hvis & Hinc & Hkey).
  unfold exposed_key in Hkey. rewrite decide_False in Hkey by done.
  destruct (decide _) as [|_] in Hkey; [done |]. injection Hkey as <-.
  split; [apply before_no_byte |].
  apply andb_true_iff in Hinc as [Hexp Hanon]. apply negb_true_iff in Hanon.
  by exists f.
Qed.

Lemma Name_inj (l : list StructField) (f g : StructField) :
  NoDup (Name <$> l) -> f ∈ l -> g ∈ l -> Name f = Name g -> f = g.
Proof.
  intros Hnd [i Hi]%list_elem_of_lookup [j Hj]%list_elem_of_lookup Hn.
  assert (i = j) as ->; [| congruence].
  eapply (NoDup_lookup _ i j (Name f) Hnd).
  - by rewrite list_lookup_fmap, Hi.
  - rewrite list_lookup_fmap, Hj. simpl. by rewrite Hn.
Qed.

(** X16. No field is exposed under two keys: the mapping of an adapter that
    [NewStructRecord] built sends distinct keys to distinct field names. *)
Theorem mapping_is_injective (strct : iface) (tagName : list string)
  (sr : StructRecord) (k1 k2 name : string) :
  NewStructRecord strct tagName = Ok (sr, None) ->
  tagsToName sr !! k1 = Some name ->
  tagsToName sr !! k2 = Some name ->
  k1 = k2.
Proof.
  intros H H1 H2. apply NewStructRecord_Ok_inv in H as (t & v & fs & -> & _ & ->).
  destruct (built_record_lookup_inv _ _ _ _ _ H1) as (f1 & _ & Hf1 & Hn1).
  destruct (built_record_lookup_inv _ _ _ _ _ H2) as (f2 & _ & Hf2 & Hn2).
  apply contributors_visible in Hf1 as (Hv1 & _ & Hk1).
  apply contributors_visible in Hf2 as (Hv2 & _ & Hk2).
  assert (f1 = f2) as ->.
  { eapply Name_inj; [apply (visible_fields_NoDup (TStruct fs)) | done | done | congruence]. }
  congruence.
Qed.

End behaviour.

(** ** Further examples *)

Section behaviour_examples.

Import reflect.

Lemma In_returns_input_witness :
  NewStructRecord (Some (TPtr Person, VPtr 0)) ["db"; "json"]
    = Ok (built_record (Some (TPtr Person, VPtr 0)) ["db"; "json"] Person, None) ∧
  In (built_record (Some (TPtr Person, VPtr 0)) ["db"; "json"] Person)
    = Some (TPtr Person, VPtr 0) ∧
  tagName (built_record (Some (TPtr Person, VPtr 0)) ["db"; "json"] Person) = "db".
Proof.
  assert (H : NewStructRecord (Some (TPtr Person, VPtr 0)) ["db"; "json"]
                = Ok (built_record (Some (TPtr Person, VPtr 0)) ["db"; "json"] Person, None))
    by (vm_compute; reflexivity).
  split; [exact H |]. exact (In_returns_input _ _ _ H).
Defined.

Lemma refused_adapter_is_empty_witness :
  NewStructRecord (Some (TInt, VInt 5)) ["db"] = Ok (zeroStructRecord, Some ErrNotAStruct) ∧
  In zeroStructRecord = None ∧ GetKeys zeroStructRecord = [] ∧
  GetVals ∅ zeroStructRecord = Ok (Some []) ∧
  Get ∅ zeroStructRecord "id" = Ok (None, false).
Proof.
  assert (H : NewStructRecord (Some (TInt, VInt 5)) ["db"]
                = Ok (zeroStructRecord, Some ErrNotAStruct))
    by (vm_compute; reflexivity).
  split; [exact H |].
  destruct (refused_adapter_is_empty _ _ _ _ H) as (_ & Hin & Hkeys & Hget).
  split; [exact Hin |]. split; [exact Hkeys |].
  destruct (Hget ∅) as [Hvals Hk]. split; [exact Hvals | exact (Hk "id")].
Defined.

Lemma Get_unknown_key_witness :
  NewStructRecord (Some (Person, alice)) ["db"]
    = Ok (built_record (Some (Person, alice)) ["db"] Person, None) ∧
  ("secret" ∉ GetKeys (built_record (Some (Person, alice)) ["db"] Person) ->
   forall h, Get h (built_record (Some (Person, alice)) ["db"] Person) "secret"
             = Ok (None, false)) ∧
  ("id" ∈ GetKeys (built_record (Some (Person, alice)) ["db"] Person) <->
   is_Some (tagsToName (built_record (Some (Person, alice)) ["db"] Person) !! "id")).
Proof.
  assert (H : NewStructRecord (Some (Person, alice)) ["db"]
                = Ok (built_record (Some (Person, alice)) ["db"] Person, None))
    by (vm_compute; reflexivity).
  split; [exact H |]. split.
  - exact (proj1 (proj2 (Get_unknown_key _ _ _ _ "secret" H))).
  - exact (proj1 (Get_unknown_key _ _ _ _ "id" H)).
Defined.

Lemma extract_whole_tag_value_witness :
  StructTag_Get (Tag field_ID) "db" = "id" ∧
  extract field_ID "db" ∅ = Ok (["id"], {["id" := "ID"]}).
Proof.
  split; [reflexivity |].
  apply (extract_whole_tag_value field_ID "db" ∅).
  - discriminate.
  - reflexivity.
  - discriminate.
  - discriminate.
Defined.

Lemma Get_Interface_accepts_witness :
  NewStructRecord (Some (Boxes, boxes)) []
    = Ok (built_record (Some (Boxes, boxes)) [] Boxes, None) ∧
  tagsToName (built_record (Some (Boxes, boxes)) [] Boxes) !! "J" = Some "J" ∧
  Value_FieldByName ∅ (Some (mkValue Boxes boxes false false)) "J"
    = Ok (Some (mkValue TIface (VIface None) false false)) ∧
  Get ∅ (built_record (Some (Boxes, boxes)) [] Boxes) "J" = Ok (None, true).
Proof.
  assert (H : NewStructRecord (Some (Boxes, boxes)) []
                = Ok (built_record (Some (Boxes, boxes)) [] Boxes, None))
    by (vm_compute; reflexivity).
  assert (Hk : tagsToName (built_record (Some (Boxes, boxes)) [] Boxes) !! "J"
               = Some "J") by (vm_compute; reflexivity).
  assert (Hind : Indirect ∅ (ValueOf (In (built_record (Some (Boxes, boxes)) [] Boxes)))
                 = Ok (Some (mkValue Boxes boxes false false)))
    by (vm_compute; reflexivity).
  assert (Hfv : Value_FieldByName ∅ (Some (mkValue Boxes boxes false false)) "J"
                = Ok (Some (mkValue TIface (VIface None) false false)))
    by (vm_compute; reflexivity).
  split; [exact H |]. split; [exact Hk |]. split; [exact Hfv |].
  destruct (Get_Interface_accepts _ _ _ ∅ "J" "J" _ _ H Hk Hind Hfv)
    as (t & x0 & fs & f & x & _ & _ & _ & _ & Heq & _ & Hiface).
  injection Heq as Ht Hx.
  apply (Hiface None); [by rewrite <- Ht | by rewrite <- Hx].
Defined.

Lemma Get_nil_embedded_pointer_witness :
  NewStructRecord (Some (Deep, deep_nil)) []
    = Ok (built_record (Some (Deep, deep_nil)) [] Deep, None) ∧
  GetKeys (built_record (Some (Deep, deep_nil)) [] Deep) = ["X"; "Z"] ∧
  nil_on_path ∅ Deep_fields deep_nil [0; 0; 0] = true ∧
  panics (Get ∅ (built_record (Some (Deep, deep_nil)) [] Deep) "X") ∧
  panics (GetVals ∅ (built_record (Some (Deep, deep_nil)) [] Deep)).
Proof.
  assert (H : NewStructRecord (Some (Deep, deep_nil)) []
                = Ok (built_record (Some (Deep, deep_nil)) [] Deep, None))
    by (vm_compute; reflexivity).
  split; [exact H |]. split; [vm_compute; reflexivity |]. split; [reflexivity |].
  apply (Get_nil_embedded_pointer ∅ Deep deep_nil deep_nil Deep_fields [] _ "X"
           (field_of_decl (exported "X" []) TInt [0; 0; 0])).
  - reflexivity.
  - exact H.
  - reflexivity.
  - vm_compute. constructor.
  - vm_compute. reflexivity.
  - reflexivity.
Defined.

Lemma untagged_keys_are_field_names_witness :
  NewStructRecord (Some (Person, alice)) []
    = Ok (built_record (Some (Person, alice)) [] Person, None) ∧
  GetKeys (built_record (Some (Person, alice)) [] Person)
    = Name <$> filter (fun f => included f) (visible_fields (TStruct Person_fields)) ∧
  NoDup (GetKeys (built_record (Some (Person, alice)) [] Person)).
Proof.
  assert (H : NewStructRecord (Some (Person, alice)) []
                = Ok (built_record (Some (Person, alice)) [] Person, None))
    by (vm_compute; reflexivity).
  split; [exact H |].
  destruct (untagged_keys_are_field_names Person alice Person_fields [] _ eq_refl H eq_refl)
    as (Hkeys & Hnd & _).
  split; [exact Hkeys | exact Hnd].
Defined.

Lemma shadowed_field_gives_no_key_witness :
  decl_at Both_fields [0; 0] = Some (exported "ID" [], TInt) ∧
  decl_at Both_fields [1; 0] = Some (exported "ID" [], TInt) ∧
  NewStructRecord (Some (Both, both)) []
    = Ok (built_record (Some (Both, both)) [] Both, None) ∧
  ("ID" ∉ GetKeys (built_record (Some (Both, both)) [] Both)) ∧
  forall h, Get h (built_record (Some (Both, both)) [] Both) "ID" = Ok (None, false).
Proof.
  assert (H1 : decl_at Both_fields [0; 0] = Some (exported "ID" [], TInt)) by reflexivity.
  assert (H2 : decl_at Both_fields [1; 0] = Some (exported "ID" [], TInt)) by reflexivity.
  assert (H : NewStructRecord (Some (Both, both)) []
                = Ok (built_record (Some (Both, both)) [] Both, None))
    by (vm_compute; reflexivity).
  split; [exact H1 |]. split; [exact H2 |]. split; [exact H |].
  assert (Hne : [1; 0] ≠ [0; 0]) by discriminate.
  assert (Hlen : length [1; 0] <= length [0; 0]) by (simpl; lia).
  destruct (shadowed_field_gives_no_key Both_fields [] [0; 0] [1; 0] _ _ _ _
              H1 H2 eq_refl Hne Hlen) as [_ Hkeys].
  assert (Hmin : forall index'' d'' ft'',
            decl_at Both_fields index'' = Some (d'', ft'') ->
            dName d'' = dName (exported "ID" []) -> length [0; 0] <= length index'').
  { intros index'' d'' ft'' Hat Hname.
    destruct index'' as [|[|[|a]] [|[|b] [|c rest]]]; simplify_eq/=; lia. }
  exact (Hkeys eq_refl Hmin Both both _ eq_refl H).
Defined.

Ltac distinct_strings :=
  repeat (apply NoDup_cons; split;
          [intros Hin; repeat (apply elem_of_cons in Hin as [?|Hin]; [done |]);
           by apply elem_of_nil in Hin |]);
  apply NoDup_nil_2.

Lemma Boxes_plain : plain_struct Boxes_fields.
Proof.
  split_and!.
  - intros p Hp. repeat (apply elem_of_cons in Hp as [->|Hp]; [done |]).
    by apply elem_of_nil in Hp.
  - simpl. distinct_strings.
  - intros p Hp. repeat (apply elem_of_cons in Hp as [->|Hp]; [done |]).
    by apply elem_of_nil in Hp.
Qed.

Lemma GetVals_plain_struct_witness :
  NewStructRecord (Some (Boxes, boxes)) []
    = Ok (built_record (Some (Boxes, boxes)) [] Boxes, None) ∧
  GetVals ∅ (built_record (Some (Boxes, boxes)) [] Boxes)
    = Ok (Some [Some (TInt, VInt 5); None]).
Proof.
  assert (H : NewStructRecord (Some (Boxes, boxes)) []
                = Ok (built_record (Some (Boxes, boxes)) [] Boxes, None))
    by (vm_compute; reflexivity).
  split; [exact H |].
  apply (GetVals_plain_struct ∅ Boxes boxes Boxes_fields
           [VIface (Some (TInt, VInt 5)); VIface None] [] _ _ eq_refl H Boxes_plain).
  - assert (Hk : GetKeys (built_record (Some (Boxes, boxes)) [] Boxes) = ["I"; "J"])
      by (vm_compute; reflexivity).
    rewrite Hk. distinct_strings.
  - reflexivity.
  - vm_compute. reflexivity.
Defined.

Lemma pointer_and_value_agree_witness :
  NewStructRecord (Some (TPtr Person, VPtr 0)) ["db"]
    = Ok (built_record (Some (TPtr Person, VPtr 0)) ["db"] Person, None) ∧
  NewStructRecord (Some (Person, alice)) ["db"]
    = Ok (built_record (Some (Person, alice)) ["db"] Person, None) ∧
  heap0 !! 0 = Some alice ∧
  GetVals heap0 (built_record (Some (TPtr Person, VPtr 0)) ["db"] Person)
    = GetVals heap0 (built_record (Some (Person, alice)) ["db"] Person).
Proof.
  assert (Hp : NewStructRecord (Some (TPtr Person, VPtr 0)) ["db"]
                 = Ok (built_record (Some (TPtr Person, VPtr 0)) ["db"] Person, None))
    by (vm_compute; reflexivity).
  assert (Hv : NewStructRecord (Some (Person, alice)) ["db"]
                 = Ok (built_record (Some (Person, alice)) ["db"] Person, None))
    by (vm_compute; reflexivity).
  assert (Ha : heap0 !! 0 = Some alice) by (vm_compute; reflexivity).
  split; [exact Hp |]. split; [exact Hv |]. split; [exact Ha |].
  exact (proj2 (proj2 (pointer_and_value_agree heap0 0 alice Person_fields ["db"]
                         _ _ Hp Hv Ha))).
Defined.

Lemma tagged_keys_have_no_comma_witness :
  NewStructRecord (Some (Person, alice)) ["db"]
    = Ok (built_record (Some (Person, alice)) ["db"] Person, None) ∧
  first_tag ["db"] ≠ "" ∧
  ("name" ∈ GetKeys (built_record (Some (Person, alice)) ["db"] Person)) ∧
  contains_byte "," "name" = false.
Proof.
  assert (H : NewStructRecord (Some (Person, alice)) ["db"]
                = Ok (built_record (Some (Person, alice)) ["db"] Person, None))
    by (vm_compute; reflexivity).
  assert (Htag : first_tag ["db"] ≠ "") by discriminate.
  assert (Hk : "name" ∈ GetKeys (built_record (Some (Person, alice)) ["db"] Person)).
  { vm_compute. apply elem_of_cons. right. apply elem_of_cons. by left. }
  split; [exact H |]. split; [exact Htag |]. split; [exact Hk |].
  exact (proj1 (tagged_keys_have_no_comma Person alice Person_fields ["db"] _ "name"
                  eq_refl H Htag Hk)).
Defined.

Lemma mapping_is_injective_witness :
  NewStructRecord (Some (Person, alice)) ["db"]
    = Ok (built_record (Some (Person, alice)) ["db"] Person, None) ∧
  tagsToName (built_record (Some (Person, alice)) ["db"] Person) !! "id" = Some "ID" ∧
  "id" = "id".
Proof.
  assert (H : NewStructRecord (Some (Person, alice)) ["db"]
                = Ok (built_record (Some (Person, alice)) ["db"] Person, None))
    by (vm_compute; reflexivity).
  assert (Hm : tagsToName (built_record (Some (Person, alice)) ["db"] Person) !! "id"
               = Some "ID") by (vm_compute; reflexivity).
  split; [exact H |]. split; [exact Hm |].
  exact (mapping_is_injective _ _ _ "id" "id" "ID" H Hm Hm).
Defined.

End behaviour_examples.
